(** * bwt-flow: the BWT / MTF / RLE pipeline of [src/lib/bwt.ts]

    A shallow embedding of the six transforms and of the two pipeline
    functions, followed by the properties of the specification that were
    checked against them.

    Modelling conventions.
    - A JavaScript string is the list of its UTF-16 code units
      ([jsstring]); [s[i]] and [slice] work on code units, [for .. of] and
      [new Set(s)] on code points (see [codePoints]).
    - A JavaScript number that the code uses as a length, an index or a
      count is an integer ([Z] or [nat]); all of them stay below 2^53, where
      the arithmetic of doubles is exact.  A quotient of two such integers
      (the [ratio] fields) is kept as the pair it is computed from
      ([jsquotient]), with the two special values that a zero divisor gives.
    - A call either returns or throws: [outcome].  [Number] is modelled on
      the texts made of decimal digits; a call that needs it on another
      text has the outcome [Unmodelled].
    - The two sorts with [localeCompare] use the order of code points. *)

From Stdlib Require Import Ascii String.
From Stdlib Require Import List Arith ZArith NArith Lia Bool.
From Stdlib Require Import Permutation Sorted.
Import ListNotations.
Local Open Scope string_scope.
Local Open Scope list_scope.
Local Open Scope Z_scope.

(* ================================================================== *)
(** ** Strings, code units and code points *)

Module Js.

Definition codeunit := N.
Definition jsstring := list codeunit.

(** A string literal of the source, as code units. *)
Definition str (s : string) : jsstring :=
  map N_of_ascii (list_ascii_of_string s).

Definition codeunit_eqb (a b : codeunit) : bool := N.eqb a b.

Fixpoint jsstring_eqb (a b : jsstring) : bool :=
  match a, b with
  | [], [] => true
  | x :: a', y :: b' => codeunit_eqb x y && jsstring_eqb a' b'
  | _, _ => false
  end.

Definition isHighSurrogate (c : codeunit) : bool :=
  (N.leb 55296 c && N.leb c 56319)%N.
Definition isLowSurrogate (c : codeunit) : bool :=
  (N.leb 56320 c && N.leb c 57343)%N.

(** The string iterator ([for (const ch of s)], [new Set(s)],
    [Array.from(s)]): one element per code point, a surrogate pair staying
    together. *)
Fixpoint codePoints (s : jsstring) : list jsstring :=
  match s with
  | [] => []
  | c :: t =>
      match t with
      | d :: t' =>
          if isHighSurrogate c && isLowSurrogate d
          then [c; d] :: codePoints t'
          else [c] :: codePoints t
      | [] => [[c]]
      end
  end.

(** The numeric value of each code point of a string. *)
Fixpoint codePointValues (s : jsstring) : list N :=
  match s with
  | [] => []
  | c :: t =>
      match t with
      | d :: t' =>
          if isHighSurrogate c && isLowSurrogate d
          then (65536 + (c - 55296) * 1024 + (d - 56320))%N :: codePointValues t'
          else c :: codePointValues t
      | [] => [c]
      end
  end.

Fixpoint lexCompare (a b : list N) : comparison :=
  match a, b with
  | [], [] => Eq
  | [], _ :: _ => Lt
  | _ :: _, [] => Gt
  | x :: a', y :: b' =>
      match N.compare x y with
      | Eq => lexCompare a' b'
      | c => c
      end
  end.

(** Modelled from the spec: [String.prototype.localeCompare] belongs to the
    host, not to the repository; the specification fixes the order used to
    sort rotations as the total lexicographic order over code points. *)
Definition localeCompare (a b : jsstring) : comparison :=
  lexCompare (codePointValues a) (codePointValues b).

(** The default comparison of [Array.prototype.sort()] on strings: code
    units, lexicographically. *)
Definition defaultCompare (a b : jsstring) : comparison := lexCompare a b.

(** [/\d/.test(c)] for a one-unit string: the ASCII digits only. *)
Definition isDigit (c : codeunit) : bool := (N.leb 48 c && N.leb c 57)%N.

Definition comma : codeunit := 44%N.
Definition dollar : codeunit := 36%N.
Definition minus : codeunit := 45%N.

(** The string ["undefined"], what [s += undefined] appends. *)
Definition undefinedText : jsstring := str "undefined".

(** *** Arrays *)

(** [Array.prototype.sort(cmp)] is stable; with a comparison that is a total
    preorder its result is the one a stable insertion sort gives. *)
Section Sort.
Context {A : Type} (cmp : A -> A -> comparison).

Fixpoint insertSorted (x : A) (l : list A) : list A :=
  match l with
  | [] => [x]
  | y :: t =>
      match cmp x y with
      | Gt => y :: insertSorted x t
      | _ => x :: y :: t
      end
  end.

Definition sort (l : list A) : list A := fold_right insertSorted [] l.
End Sort.

(** [a.splice(index, 1)] as the array it leaves: a negative index counts
    from the end, an index past the end removes nothing. *)
Definition spliceOne {A : Type} (index : Z) (a : list A) : list A :=
  let len := Z.of_nat (length a) in
  let start := if index <? 0 then Z.max (len + index) 0 else Z.min index len in
  firstn (Z.to_nat start) a ++ skipn (S (Z.to_nat start)) a.

(** [a[index]], [None] standing for [undefined]. *)
Definition at_ {A : Type} (a : list A) (index : Z) : option A :=
  if index <? 0 then None else nth_error a (Z.to_nat index).

(** [a.indexOf(x)], -1 when [x] does not occur. *)
Fixpoint indexOfFrom (a : list jsstring) (x : jsstring) (i : Z) : Z :=
  match a with
  | [] => -1
  | y :: t => if jsstring_eqb y x then i else indexOfFrom t x (i + 1)
  end.
Definition indexOf (a : list jsstring) (x : jsstring) : Z := indexOfFrom a x 0.

(** [Array.from(new Set(xs))]: first occurrences, in order. *)
Fixpoint memb (x : jsstring) (l : list jsstring) : bool :=
  match l with
  | [] => false
  | y :: t => jsstring_eqb y x || memb x t
  end.
Fixpoint uniqueAcc (seen : list jsstring) (xs : list jsstring) : list jsstring :=
  match xs with
  | [] => rev seen
  | x :: t => if memb x seen then uniqueAcc seen t else uniqueAcc (x :: seen) t
  end.
Definition unique (xs : list jsstring) : list jsstring := uniqueAcc [] xs.

(** *** Numbers and their decimal text *)

Fixpoint digitsFuel (fuel : nat) (n : N) (acc : jsstring) : jsstring :=
  match fuel with
  | O => acc
  | S f =>
      let acc' := (48 + n mod 10)%N :: acc in
      if (n <? 10)%N then acc' else digitsFuel f (n / 10)%N acc'
  end.

(** [String(n)] for a natural number below 2^53. *)
Definition digitsOfN (n : N) : jsstring :=
  digitsFuel (S (N.to_nat (N.size n))) n [].

(** [String(z)] / [`${z}`] for an integer. *)
Definition numberToString (z : Z) : jsstring :=
  if z <? 0 then minus :: digitsOfN (Z.to_N (- z)) else digitsOfN (Z.to_N z).

(** The value of a string of decimal digits, read left to right. *)
Definition digitStep (acc : N) (d : codeunit) : N := (acc * 10 + (d - 48))%N.
Definition digitsValue (ds : jsstring) : N := fold_left digitStep ds 0%N.

(** The quotient [a / b] of two integers as JavaScript computes it: with
    a zero divisor the result is [NaN] or an infinity and nothing is
    thrown. *)
Inductive jsquotient : Type :=
| Quotient (num den : Z)
| NaN
| PosInfinity
| NegInfinity.

Definition divide (a b : Z) : jsquotient :=
  if b =? 0 then
    (if a =? 0 then NaN else if 0 <? a then PosInfinity else NegInfinity)
  else Quotient a b.

(** A ratio is well defined when it is a number, neither [NaN] nor an
    infinity. *)
Definition isFiniteNumber (q : jsquotient) : bool :=
  match q with
  | Quotient _ _ => true
  | _ => false
  end.

(** *** Results of calls *)

Inductive outcome (A : Type) : Type :=
| Return (a : A)        (* the call returns [a] *)
| TypeError             (* a property of [undefined] was read *)
| RangeError            (* [String.prototype.repeat]: invalid string length *)
| Unmodelled.           (* the input leaves the fragment of [Number] modelled here *)
Arguments Return {A} a.
Arguments TypeError {A}.
Arguments RangeError {A}.
Arguments Unmodelled {A}.

Definition bind {A B : Type} (m : outcome A) (k : A -> outcome B) : outcome B :=
  match m with
  | Return a => k a
  | TypeError => TypeError
  | RangeError => RangeError
  | Unmodelled => Unmodelled
  end.

(** [Number(s)] on the strings that the pipeline produces: a string of
    ASCII digits is its decimal value and the empty string is 0.  Any other
    text (signs, blanks, fractions, exponents, prefixes, letters) is outside
    the modelled fragment. *)
Definition Number (s : jsstring) : option Z :=
  if forallb isDigit s then Some (Z.of_N (digitsValue s)) else None.

(** [s.split(',')]: always at least one piece. *)
Fixpoint splitComma (s : jsstring) : list jsstring :=
  match s with
  | [] => [[]]
  | c :: t =>
      if codeunit_eqb c comma then [] :: splitComma t
      else match splitComma t with
           | p :: ps => (c :: p) :: ps
           | [] => [[c]]
           end
  end.

(** [pieces.join(',')]. *)
Fixpoint joinComma (pieces : list jsstring) : jsstring :=
  match pieces with
  | [] => []
  | [p] => p
  | p :: ps => p ++ comma :: joinComma ps
  end.

(** The largest length a string may have in the language: 2^53 - 1.  An
    engine stops earlier, at a limit of its own that the model does not
    know: where a call of the model returns a text that the engine cannot
    hold, the engine throws a [RangeError].  The properties below are
    stated so that they hold whatever this limit is. *)
Definition maxStringLength : N := (2 ^ 53 - 1)%N.

End Js.

Import Js.

(* ================================================================== *)
(** ** The data model: [TransformResult], [CompressionStep], metadata *)

(** The [metadata] bag ([any] in the source) with the keys the pipeline
    writes or reads; an absent key is [None]. *)
Module Metadata.
Record t : Type := make {
  primaryIndex : option Z;
  alphabet : option (list jsstring);
  averageIndex : option jsquotient;
  originalLength : option Z;
  rotations : option Z;
  encodedLength : option Z;
  compressionRatio : option jsquotient
}.
End Metadata.

Module TransformResult.
Record t : Type := make {
  transformed : jsstring;
  primaryIndex : Z;
  metadata : option Metadata.t
}.
End TransformResult.

Module CompressionStep.
Record t : Type := make {
  name : jsstring;
  input : jsstring;
  output : jsstring;
  ratio : option jsquotient;
  metadata : option Metadata.t
}.
End CompressionStep.

(** [o?.key]: reading a key through an optional bag. *)
Definition optionalKey {A : Type} (key : Metadata.t -> option A)
  (o : option Metadata.t) : option A :=
  match o with
  | Some m => key m
  | None => None
  end.

(** [o.key]: reading a key of a bag that has to be there. *)
Definition requiredKey {A : Type} (key : Metadata.t -> option A)
  (o : option Metadata.t) : outcome (option A) :=
  match o with
  | Some m => Return (key m)
  | None => TypeError
  end.

Definition lengthOf (s : jsstring) : Z := Z.of_nat (length s).

(* ================================================================== *)
(** ** Burrows-Wheeler transform *)

(** One entry of the [rotations] array. *)
Record Rotation : Type := mkRotation { rotation : jsstring; index : nat }.

(** [textWithMarker.slice(i) + textWithMarker.slice(0, i)] for [i] from 0
    to [n - 1]. *)
Definition generateRotations (textWithMarker : jsstring) : list Rotation :=
  map (fun i => mkRotation (skipn i textWithMarker ++ firstn i textWithMarker) i)
      (seq 0 (length textWithMarker)).

Definition compareRotations (a b : Rotation) : comparison :=
  localeCompare (rotation a) (rotation b).

(** [s[i]] appended to a string: the unit at [i], or the text
    ["undefined"] past the end. *)
Definition charAtText (s : jsstring) (i : Z) : jsstring :=
  match at_ s i with
  | Some c => [c]
  | None => undefinedText
  end.

(** The second loop of the forward transform: the last column and the
    position of the rotation of index 0. *)
Fixpoint lastColumnFrom (rotations : list Rotation) (i : Z)
  (transformed : jsstring) (primaryIndex : Z) : jsstring * Z :=
  match rotations with
  | [] => (transformed, primaryIndex)
  | r :: rest =>
      let transformed' :=
        transformed ++ charAtText (rotation r) (lengthOf (rotation r) - 1) in
      let primaryIndex' := if Nat.eqb (index r) 0 then i else primaryIndex in
      lastColumnFrom rest (i + 1) transformed' primaryIndex'
  end.

Definition sortedRotations (text : jsstring) : list Rotation :=
  sort compareRotations (generateRotations (text ++ [dollar])).

Definition lastColumn (text : jsstring) : jsstring * Z :=
  lastColumnFrom (sortedRotations text) 0 [] 0.

(** [s.slice(0, -1)]. *)
Definition dropLast (s : jsstring) : jsstring := removelast s.

Definition burrowsWheelerTransform (text : jsstring) : TransformResult.t :=
  match text with
  | [] => TransformResult.make [] 0 None
  | _ :: _ =>
      let rotations := sortedRotations text in
      let '(transformed, primaryIndex) := lastColumnFrom rotations 0 [] 0 in
      TransformResult.make
        (dropLast transformed)
        primaryIndex
        (Some (Metadata.make None None None
                 (Some (lengthOf text))
                 (Some (Z.of_nat (length rotations)))
                 None None))
  end.

(** One pass of the outer loop of the inverse: the column is put in front
    of every row, then the rows are sorted. *)
Definition prependColumn (textWithMarker : jsstring) (table : list jsstring)
  : list jsstring :=
  map (fun '(c, row) => c :: row) (combine textWithMarker table).

Definition tableStep (textWithMarker : jsstring) (table : list jsstring)
  : list jsstring :=
  sort localeCompare (prependColumn textWithMarker table).

Definition buildTable (textWithMarker : jsstring) : list jsstring :=
  let n := length textWithMarker in
  Nat.iter n (tableStep textWithMarker) (repeat [] n).

Definition inverseBurrowsWheelerTransform (transformed : jsstring)
  (primaryIndex : Z) : outcome jsstring :=
  match transformed with
  | [] => Return []
  | _ :: _ =>
      let textWithMarker := transformed ++ [dollar] in
      match at_ (buildTable textWithMarker) primaryIndex with
      | Some originalWithMarker => Return (dropLast originalWithMarker)
      | None => TypeError
      end
  end.

(* ================================================================== *)
(** ** Move-to-front *)

(** [alphabet.splice(index, 1); alphabet.unshift(char)]. *)
Definition moveToFront {A : Type} (index : Z) (char : A) (alphabet : list A)
  : list A :=
  char :: spliceOne index alphabet.

Fixpoint mtfIndices (chars : list jsstring) (alphabet : list jsstring)
  : list Z :=
  match chars with
  | [] => []
  | char :: rest =>
      let index := indexOf alphabet char in
      index :: mtfIndices rest (moveToFront index char alphabet)
  end.

(** [Array.from(new Set(text)).sort()]. *)
Definition sortedAlphabet (text : jsstring) : list jsstring :=
  sort defaultCompare (unique (codePoints text)).

Definition sumZ (l : list Z) : Z := fold_left Z.add l 0.

Definition moveToFrontTransform (text : jsstring) : TransformResult.t :=
  match text with
  | [] => TransformResult.make [] 0 None
  | _ :: _ =>
      let indices := mtfIndices (codePoints text) (sortedAlphabet text) in
      TransformResult.make
        (joinComma (map numberToString indices))
        0
        (Some (Metadata.make None
                 (Some (sortedAlphabet text))
                 (Some (divide (sumZ indices) (Z.of_nat (length indices))))
                 None None None None))
  end.

(** What [result += char] appends, [char] being an element of the working
    alphabet or [undefined]. *)
Definition textOf (char : option jsstring) : jsstring :=
  match char with
  | Some s => s
  | None => undefinedText
  end.

(** The loop of the inverse.  The working alphabet may come to hold
    [undefined] (an index past its end puts one in front). *)
Fixpoint inverseMtfLoop (indexArray : list Z) (alphabet : list (option jsstring))
  : jsstring :=
  match indexArray with
  | [] => []
  | index :: rest =>
      let char := match at_ alphabet index with
                  | Some c => c
                  | None => None
                  end in
      textOf char ++ inverseMtfLoop rest (moveToFront index char alphabet)
  end.

(** [indices.split(',').map(Number)]. *)
Fixpoint numbersOf (pieces : list jsstring) : option (list Z) :=
  match pieces with
  | [] => Some []
  | p :: ps =>
      match Number p, numbersOf ps with
      | Some z, Some zs => Some (z :: zs)
      | _, _ => None
      end
  end.

Definition inverseMoveToFrontTransform (indices : jsstring)
  (originalAlphabet : list jsstring) : outcome jsstring :=
  match indices with
  | [] => Return []
  | _ :: _ =>
      match numbersOf (splitComma indices) with
      | Some indexArray =>
          Return (inverseMtfLoop indexArray (map Some originalAlphabet))
      | None => Unmodelled
      end
  end.

(* ================================================================== *)
(** ** Run-length coding *)

(** [count > 1 ? `${count}${currentChar}` : currentChar]. *)
Definition emitRun (count : Z) (currentChar : codeunit) : jsstring :=
  if 1 <? count then numberToString count ++ [currentChar] else [currentChar].

(** The loop of the encoder from position [i] on, with the run that is
    open; the last run is emitted when the text ends. *)
Fixpoint encodeRuns (rest : jsstring) (currentChar : codeunit) (count : Z)
  : jsstring :=
  match rest with
  | [] => emitRun count currentChar
  | c :: rest' =>
      if codeunit_eqb c currentChar
      then encodeRuns rest' currentChar (count + 1)
      else emitRun count currentChar ++ encodeRuns rest' c 1
  end.

Definition runLengthEncode (text : jsstring) : TransformResult.t :=
  match text with
  | [] => TransformResult.make [] 0 None
  | c :: rest =>
      let encoded := encodeRuns rest c 1 in
      TransformResult.make
        encoded
        0
        (Some (Metadata.make None None None
                 (Some (lengthOf text))
                 None
                 (Some (lengthOf encoded))
                 (Some (divide (lengthOf text) (lengthOf encoded)))))
  end.

(** [char.repeat(count)] followed by the rest of the decoding. *)
Definition repeatChar (char : codeunit) (count : N) (rest : outcome jsstring)
  : outcome jsstring :=
  if (count <=? maxStringLength)%N
  then bind rest (fun decoded => Return (repeat char (N.to_nat count) ++ decoded))
  else RangeError.

(** The inner [while] of the decoder: the digits are gathered in
    [countStr]; the loop stops on the first unit that is no digit, the
    character of the run, after which the outer loop goes on ([next]), or at
    the end of the text, where [encoded[i]] is [undefined] and
    [char.repeat] throws. *)
Fixpoint digitsLoop (next : jsstring -> outcome jsstring)
  (countStr : jsstring) (r : jsstring) {struct r} : outcome jsstring :=
  match r with
  | [] => TypeError
  | d :: r' =>
      if isDigit d then digitsLoop next (countStr ++ [d]) r'
      else repeatChar d (digitsValue countStr) (next r')
  end.

(** The outer [while], on the part of [encoded] from position [i] on.  The
    inner loop is entered on a digit [c] that has a unit after it; its
    first round, which takes [c], is done here. *)
Fixpoint decodeFrom (encoded : jsstring) : outcome jsstring :=
  match encoded with
  | [] => Return []
  | c :: t =>
      match t with
      | _ :: _ =>
          if isDigit c then digitsLoop decodeFrom [c] t
          else bind (decodeFrom t) (fun decoded => Return (c :: decoded))
      | [] => Return [c]
      end
  end.

Definition runLengthDecode (encoded : jsstring) : outcome jsstring :=
  match encoded with
  | [] => Return []
  | _ :: _ => decodeFrom encoded
  end.

(* ================================================================== *)
(** ** The pipeline *)

(** [{ primaryIndex: bwtResult.primaryIndex, ...bwtResult.metadata }]: the
    key first, then the keys of the bag when there is one. *)
Definition withPrimaryIndex (primaryIndex : Z) (metadata : option Metadata.t)
  : Metadata.t :=
  match metadata with
  | Some m =>
      Metadata.make
        (match Metadata.primaryIndex m with
         | Some p => Some p
         | None => Some primaryIndex
         end)
        (Metadata.alphabet m) (Metadata.averageIndex m)
        (Metadata.originalLength m) (Metadata.rotations m)
        (Metadata.encodedLength m) (Metadata.compressionRatio m)
  | None => Metadata.make (Some primaryIndex) None None None None None None
  end.

Definition compressText (text : jsstring) : list CompressionStep.t :=
  let bwtResult := burrowsWheelerTransform text in
  let mtfResult := moveToFrontTransform (TransformResult.transformed bwtResult) in
  let rleResult := runLengthEncode (TransformResult.transformed mtfResult) in
  [ CompressionStep.make (str "Original") text text
      (Some (Quotient 1 1)) None;
    CompressionStep.make (str "BWT") text
      (TransformResult.transformed bwtResult)
      (Some (divide (lengthOf text)
                    (lengthOf (TransformResult.transformed bwtResult))))
      (Some (withPrimaryIndex (TransformResult.primaryIndex bwtResult)
                              (TransformResult.metadata bwtResult)));
    CompressionStep.make (str "MTF")
      (TransformResult.transformed bwtResult)
      (TransformResult.transformed mtfResult)
      (Some (divide (lengthOf (TransformResult.transformed bwtResult))
                    (lengthOf (TransformResult.transformed mtfResult))))
      (TransformResult.metadata mtfResult);
    CompressionStep.make (str "RLE")
      (TransformResult.transformed mtfResult)
      (TransformResult.transformed rleResult)
      (Some (divide (lengthOf (TransformResult.transformed mtfResult))
                    (lengthOf (TransformResult.transformed rleResult))))
      (TransformResult.metadata rleResult) ].

(** The part of [decompressText] after the length test, on the three steps
    it reads. *)
Definition invertSteps (bwtStep mtfStep rleStep : CompressionStep.t)
  : outcome jsstring :=
  bind (runLengthDecode (CompressionStep.output rleStep)) (fun current =>
  bind (match optionalKey Metadata.alphabet (CompressionStep.metadata mtfStep) with
        | Some alphabet => inverseMoveToFrontTransform current alphabet
        | None => Return current
        end) (fun current =>
  match optionalKey Metadata.primaryIndex (CompressionStep.metadata bwtStep) with
  | Some primaryIndex => inverseBurrowsWheelerTransform current primaryIndex
  | None => Return current
  end)).

Definition decompressText (steps : list CompressionStep.t) : outcome jsstring :=
  if (length steps <? 4)%nat then Return []
  else
    match nth_error steps 1, nth_error steps 2, nth_error steps 3 with
    | Some bwtStep, Some mtfStep, Some rleStep =>
        invertSteps bwtStep mtfStep rleStep
    | _, _, _ => TypeError
    end.


(** The expression of the MTF round trip:
    [inverseMoveToFrontTransform(r.transformed, r.metadata.alphabet)] with
    [r = moveToFrontTransform(text)].  Reading [.alphabet] needs the bag;
    spreading an absent alphabet throws. *)
Definition mtfRoundTrip (text : jsstring) : outcome jsstring :=
  let r := moveToFrontTransform text in
  bind (requiredKey Metadata.alphabet (TransformResult.metadata r))
    (fun alphabet =>
       match TransformResult.transformed r, alphabet with
       | [], _ => Return []
       | _ :: _, None => TypeError
       | indices, Some a => inverseMoveToFrontTransform indices a
       end).

(** [inverseBurrowsWheelerTransform(r.transformed, r.primaryIndex)] with
    [r = burrowsWheelerTransform(text)]. *)
Definition bwtRoundTrip (text : jsstring) : outcome jsstring :=
  let r := burrowsWheelerTransform text in
  inverseBurrowsWheelerTransform (TransformResult.transformed r)
                                 (TransformResult.primaryIndex r).

(** [runLengthDecode(runLengthEncode(text).transformed)]. *)
Definition rleRoundTrip (text : jsstring) : outcome jsstring :=
  runLengthDecode (TransformResult.transformed (runLengthEncode text)).

(** Each step takes as input what the step before it put out. *)
Fixpoint chained (steps : list CompressionStep.t) : Prop :=
  match steps with
  | a :: (b :: _) as rest =>
      CompressionStep.input b = CompressionStep.output a /\ chained rest
  | _ => True
  end.

(** The ratio of a step is a number (not [NaN], not infinite, not absent). *)
Definition ratioDefined (step : CompressionStep.t) : bool :=
  match CompressionStep.ratio step with
  | Some q => isFiniteNumber q
  | None => false
  end.

(** [s] with the unit at position [i] taken out. *)
Definition removeAt (i : Z) (s : jsstring) : jsstring :=
  if i <? 0 then s
  else firstn (Z.to_nat i) s ++ skipn (S (Z.to_nat i)) s.

(** A text without decimal digits. *)
Definition digitFree (text : jsstring) : bool :=
  forallb (fun c => negb (isDigit c)) text.

(** A piece of a comma-separated text: no comma in it. *)
Definition commaFree (p : jsstring) : Prop :=
  forallb (fun c => negb (codeunit_eqb c comma)) p = true.

(** The unit that the second loop takes from a rotation. *)
Definition lastUnit (r : Rotation) : jsstring :=
  charAtText (rotation r) (lengthOf (rotation r) - 1).

(** A unit of an index text: a decimal digit or the comma. *)
Definition digitOrComma (c : codeunit) : bool :=
  isDigit c || codeunit_eqb c comma.

(** A decoding that returns a text of digits and commas, or throws. *)
Definition decodedWithin (o : outcome jsstring) : Prop :=
  match o with
  | Return decoded => forallb digitOrComma decoded = true
  | TypeError | RangeError => True
  | Unmodelled => False
  end.

(* ================================================================== *)
(** ** The display helpers that read the record *)

(** [formatOutput] of the pipeline view: a text longer than [maxLength]
    (50 when the argument is left out) is cut to [maxLength] units and
    followed by three dots. *)
Definition formatOutput (text : jsstring) (maxLength : option Z) : jsstring :=
  let maxLength := match maxLength with Some m => m | None => 50 end in
  if lengthOf text <=? maxLength then text
  else firstn (Z.to_nat maxLength) text ++ str "...".

(** [totalCompressionRatio] of the page: 1 without steps, otherwise the
    length of the first output over the length of the last one. *)
Definition totalCompressionRatio (compressionSteps : list CompressionStep.t)
  : jsquotient :=
  match compressionSteps with
  | [] => Quotient 1 1
  | original :: _ =>
      let final := last compressionSteps original in
      divide (lengthOf (CompressionStep.output original))
             (lengthOf (CompressionStep.output final))
  end.

(* ================================================================== *)
(** * Properties *)

(** ** Decimal text of numbers *)

Section Decimal.

Lemma digit_isDigit (n : N) : isDigit (48 + n mod 10)%N = true.
Proof.
  unfold isDigit.
  pose proof (N.mod_upper_bound n 10 ltac:(discriminate)) as Hm.
  set (m := (n mod 10)%N) in *. clearbody m.
  apply andb_true_iff; split; apply N.leb_le; lia.
Qed.

Lemma digitsFuel_shape (f : nat) :
  forall (n : N) (acc : jsstring),
    exists pre, digitsFuel f n acc = pre ++ acc
                /\ forallb isDigit pre = true
                /\ (f <> O -> pre <> []).
Proof.
  induction f as [|f IH]; intros n acc; cbn [digitsFuel].
  - exists []. repeat split; auto.
  - destruct (n <? 10)%N.
    + exists [(48 + n mod 10)%N]. cbn [forallb app].
      rewrite digit_isDigit. repeat split; auto. discriminate.
    + destruct (IH (n / 10)%N ((48 + n mod 10)%N :: acc)) as (pre & E & D & _).
      exists (pre ++ [(48 + n mod 10)%N]). rewrite E, <- app_assoc.
      rewrite forallb_app, D. cbn [forallb app]. rewrite digit_isDigit.
      repeat split; auto. intros _ H. now destruct pre.
Qed.

Lemma digitsFuel_S (f : nat) (n : N) (acc : jsstring) :
  digitsFuel (S f) n acc
  = if (n <? 10)%N then (48 + n mod 10)%N :: acc
    else digitsFuel f (n / 10)%N ((48 + n mod 10)%N :: acc).
Proof. reflexivity. Qed.

Lemma digitsFuel_value (f : nat) :
  forall (n : N) (acc : jsstring),
    (n < 2 ^ N.of_nat f)%N ->
    fold_left digitStep (digitsFuel (S f) n acc) 0%N = fold_left digitStep acc n.
Proof.
  induction f as [|f IH]; intros n acc Hn.
  - assert (n = 0%N) by (simpl in Hn; lia). subst n. reflexivity.
  - rewrite digitsFuel_S. destruct (N.ltb_spec n 10) as [Hlt|Hge].
    + cbn [fold_left]. f_equal. unfold digitStep.
      rewrite (N.mod_small n 10) by assumption. lia.
    + rewrite IH.
      * cbn [fold_left]. f_equal. unfold digitStep.
        pose proof (N.div_mod n 10 ltac:(discriminate)) as Hd.
        set (q := (n / 10)%N) in *. set (m := (n mod 10)%N) in *.
        clearbody q m. lia.
      * rewrite Nat2N.inj_succ, N.pow_succ_r' in Hn.
        apply N.Div0.div_lt_upper_bound. lia.
Qed.

Lemma digitsOfN_value (n : N) : digitsValue (digitsOfN n) = n.
Proof.
  unfold digitsValue, digitsOfN.
  rewrite digitsFuel_value; [reflexivity|].
  rewrite N2Nat.id. apply N.size_gt.
Qed.

Lemma digitsOfN_digits (n : N) : forallb isDigit (digitsOfN n) = true.
Proof.
  unfold digitsOfN.
  destruct (digitsFuel_shape (S (N.to_nat (N.size n))) n []) as (pre & E & D & _).
  rewrite E, app_nil_r. exact D.
Qed.

Lemma digitsOfN_nonempty (n : N) : digitsOfN n <> [].
Proof.
  unfold digitsOfN.
  destruct (digitsFuel_shape (S (N.to_nat (N.size n))) n []) as (pre & E & _ & NE).
  rewrite E, app_nil_r. apply NE. discriminate.
Qed.

Lemma Number_numberToString (z : Z) :
  0 <= z -> Number (numberToString z) = Some z.
Proof.
  intros Hz. unfold Number, numberToString.
  destruct (Z.ltb_spec z 0); [lia|].
  rewrite digitsOfN_digits, digitsOfN_value. f_equal. lia.
Qed.

End Decimal.

(** ** Strings and arrays *)

Section Strings.

Lemma jsstring_eqb_eq (a b : jsstring) : jsstring_eqb a b = true <-> a = b.
Proof.
  revert b; induction a as [|x a IH]; intros [|y b]; simpl;
    try (split; [discriminate | discriminate]); try tauto.
  unfold codeunit_eqb. rewrite andb_true_iff, N.eqb_eq, IH.
  split; [intros [-> ->]; reflexivity | intros [= -> ->]; auto].
Qed.

Lemma jsstring_eqb_refl (a : jsstring) : jsstring_eqb a a = true.
Proof. now apply jsstring_eqb_eq. Qed.

Lemma memb_In (x : jsstring) (l : list jsstring) : memb x l = true <-> In x l.
Proof.
  induction l as [|y l IH]; simpl; [split; [discriminate | tauto]|].
  rewrite orb_true_iff, jsstring_eqb_eq, IH. tauto.
Qed.

(** The iterator cuts the string, it loses nothing. *)
Lemma codePoints_concat_aux (n : nat) :
  forall s : jsstring, (length s <= n)%nat -> concat (codePoints s) = s.
Proof.
  induction n as [|n IH]; intros [|c [|d t]] Hlen; simpl in *;
    try reflexivity; try lia.
  destruct (isHighSurrogate c && isLowSurrogate d); simpl.
  - rewrite IH by lia. reflexivity.
  - f_equal. apply (IH (d :: t)). simpl. lia.
Qed.

Lemma codePoints_concat (s : jsstring) : concat (codePoints s) = s.
Proof. apply (codePoints_concat_aux (length s)). lia. Qed.

Lemma codePoints_nonempty (s : jsstring) : s <> [] -> codePoints s <> [].
Proof.
  destruct s as [|c [|d t]]; simpl; try congruence.
  destruct (isHighSurrogate c && isLowSurrogate d); discriminate.
Qed.

Lemma uniqueAcc_In (x : jsstring) (xs : list jsstring) :
  forall seen, In x (uniqueAcc seen xs) <-> In x seen \/ In x xs.
Proof.
  induction xs as [|y xs IH]; intros seen; simpl.
  - rewrite <- in_rev. tauto.
  - destruct (memb y seen) eqn:E; rewrite IH; simpl.
    + apply memb_In in E. split; [tauto|].
      intros [H|[<-|H]]; auto.
    + tauto.
Qed.

Lemma unique_In (x : jsstring) (xs : list jsstring) :
  In x (unique xs) <-> In x xs.
Proof. unfold unique. rewrite uniqueAcc_In. simpl. tauto. Qed.

Lemma insertSorted_In {A : Type} (cmp : A -> A -> comparison) (x y : A)
  (l : list A) : In y (insertSorted cmp x l) <-> y = x \/ In y l.
Proof.
  induction l as [|z l IH]; simpl; [intuition congruence|].
  destruct (cmp x z); simpl; rewrite ?IH; intuition congruence.
Qed.

Lemma sort_In {A : Type} (cmp : A -> A -> comparison) (y : A) (l : list A) :
  In y (sort cmp l) <-> In y l.
Proof.
  induction l as [|x l IH]; simpl; [tauto|].
  rewrite insertSorted_In, IH. intuition congruence.
Qed.

Lemma insertSorted_length {A : Type} (cmp : A -> A -> comparison) (x : A)
  (l : list A) : length (insertSorted cmp x l) = S (length l).
Proof.
  induction l as [|y l IH]; [reflexivity|]. cbn [insertSorted].
  destruct (cmp x y); cbn [length]; rewrite ?IH; reflexivity.
Qed.

Lemma sort_length {A : Type} (cmp : A -> A -> comparison) (l : list A) :
  length (sort cmp l) = length l.
Proof.
  induction l as [|x l IH]; [reflexivity|].
  cbn [sort fold_right]. fold (sort cmp l).
  rewrite insertSorted_length, IH. reflexivity.
Qed.

Lemma sortedAlphabet_In (text c : jsstring) :
  In c (codePoints text) -> In c (sortedAlphabet text).
Proof. intros H. unfold sortedAlphabet. now rewrite sort_In, unique_In. Qed.

Lemma indexOfFrom_In (x : jsstring) (a : list jsstring) :
  In x a ->
  forall i, exists k : nat,
    indexOfFrom a x i = i + Z.of_nat k /\ nth_error a k = Some x.
Proof.
  induction a as [|y a IH]; simpl; [tauto|]. intros Hin i.
  destruct (jsstring_eqb y x) eqn:E.
  - apply jsstring_eqb_eq in E. subst y. exists O. split; [lia | reflexivity].
  - destruct Hin as [->|Hin]; [now rewrite jsstring_eqb_refl in E|].
    destruct (IH Hin (i + 1)) as (k & Hk & Hn).
    exists (S k). split; [lia | assumption].
Qed.

Lemma spliceOne_at {A : Type} (a l1 l2 : list A) (x : A) :
  a = l1 ++ x :: l2 ->
  spliceOne (Z.of_nat (length l1)) a = l1 ++ l2.
Proof.
  intros ->. unfold spliceOne.
  destruct (Z.ltb_spec (Z.of_nat (length l1)) 0) as [H|_]; [lia|].
  rewrite Z.min_l by (rewrite length_app; simpl; lia).
  rewrite Nat2Z.id.
  rewrite firstn_app, Nat.sub_diag, firstn_all. simpl. rewrite app_nil_r.
  f_equal. clear. induction l1 as [|y l1 IH]; [reflexivity | exact IH].
Qed.

Lemma spliceOne_map {A B : Type} (f : A -> B) (i : Z) (a : list A) :
  spliceOne i (map f a) = map f (spliceOne i a).
Proof.
  unfold spliceOne. rewrite length_map, map_app, firstn_map, skipn_map.
  reflexivity.
Qed.

Lemma at_nth {A : Type} (a : list A) (k : nat) :
  at_ a (Z.of_nat k) = nth_error a k.
Proof.
  unfold at_. destruct (Z.ltb_spec (Z.of_nat k) 0); [lia|].
  now rewrite Nat2Z.id.
Qed.

Lemma splitComma_piece (p rest : jsstring) :
  commaFree p ->
  splitComma (p ++ comma :: rest) = p :: splitComma rest.
Proof.
  unfold commaFree. induction p as [|c p IH]; simpl.
  - intros _. reflexivity.
  - intros H. apply andb_true_iff in H as [Hc Hp].
    apply negb_true_iff in Hc. rewrite Hc, (IH Hp). reflexivity.
Qed.

Lemma splitComma_last (p : jsstring) : commaFree p -> splitComma p = [p].
Proof.
  unfold commaFree. induction p as [|c p IH]; simpl; [reflexivity|].
  intros H. apply andb_true_iff in H as [Hc Hp].
  apply negb_true_iff in Hc. rewrite Hc, (IH Hp). reflexivity.
Qed.

Lemma splitComma_joinComma (ps : list jsstring) :
  ps <> [] -> Forall commaFree ps -> splitComma (joinComma ps) = ps.
Proof.
  induction ps as [|p ps IH]; [congruence|]. intros _ HF.
  inversion HF as [|? ? Hp Hps]; subst.
  destruct ps as [|q ps].
  - simpl. now apply splitComma_last.
  - change (joinComma (p :: q :: ps)) with (p ++ comma :: joinComma (q :: ps)).
    rewrite splitComma_piece by assumption.
    rewrite IH; [reflexivity | discriminate | assumption].
Qed.

Lemma digits_commaFree (p : jsstring) :
  forallb isDigit p = true -> commaFree p.
Proof.
  unfold commaFree. induction p as [|c p IH]; simpl; [reflexivity|].
  intros H. apply andb_true_iff in H as [Hc Hp]. rewrite (IH Hp), andb_true_r.
  unfold isDigit in Hc. apply andb_true_iff in Hc as [H1 H2].
  apply N.leb_le in H1. apply negb_true_iff. unfold codeunit_eqb, comma.
  apply N.eqb_neq. lia.
Qed.

Lemma numbersOf_numberToString (zs : list Z) :
  Forall (fun z => 0 <= z) zs ->
  numbersOf (map numberToString zs) = Some zs.
Proof.
  induction 1 as [|z zs Hz _ IH]; simpl; [reflexivity|].
  now rewrite Number_numberToString, IH.
Qed.

Lemma numberToString_commaFree (zs : list Z) :
  Forall (fun z => 0 <= z) zs -> Forall commaFree (map numberToString zs).
Proof.
  induction 1 as [|z zs Hz _ IH]; simpl; constructor; [|assumption].
  apply digits_commaFree. unfold numberToString.
  destruct (Z.ltb_spec z 0); [lia|]. apply digitsOfN_digits.
Qed.

End Strings.

(** ** Move-to-front: the inverse follows the forward loop *)

Section MoveToFront.

(** Looking a symbol up in the working alphabet: it is found, at an index
    the inverse reads the same symbol from, and moving it to the front
    keeps the same symbols in the alphabet. *)
Lemma indexOf_found (alphabet : list jsstring) (char : jsstring) :
  In char alphabet ->
  exists l1 l2,
    alphabet = l1 ++ char :: l2
    /\ indexOf alphabet char = Z.of_nat (length l1).
Proof.
  intros Hin. destruct (indexOfFrom_In char alphabet Hin 0) as (k & Hk & Hn).
  destruct (nth_error_split alphabet k Hn) as (l1 & l2 & E & Hl).
  exists l1, l2. split; [assumption|]. unfold indexOf. rewrite Hk, Hl. lia.
Qed.

Lemma mtf_loops_agree (chars : list jsstring) :
  forall alphabet : list jsstring,
    (forall c, In c chars -> In c alphabet) ->
    inverseMtfLoop (mtfIndices chars alphabet) (map Some alphabet)
    = concat chars
    /\ Forall (fun z => 0 <= z) (mtfIndices chars alphabet).
Proof.
  induction chars as [|char rest IH]; intros alphabet Hin.
  - split; [reflexivity | constructor].
  - destruct (indexOf_found alphabet char (Hin char (or_introl eq_refl)))
      as (l1 & l2 & Ea & Ei).
    cbn [mtfIndices inverseMtfLoop concat]. rewrite Ei.
    assert (Hat : at_ (map Some alphabet) (Z.of_nat (length l1))
                  = Some (Some char)).
    { rewrite at_nth, nth_error_map, Ea, nth_error_app2, Nat.sub_diag by lia.
      reflexivity. }
    rewrite Hat. unfold moveToFront.
    rewrite spliceOne_map, (spliceOne_at alphabet l1 l2 char Ea).
    change (Some char :: map Some (l1 ++ l2))
      with (map Some (char :: l1 ++ l2)).
    destruct (IH (char :: l1 ++ l2)) as [Hloop Hpos].
    { intros c Hc. specialize (Hin c (or_intror Hc)). rewrite Ea in Hin.
      apply in_app_or in Hin. simpl. rewrite in_app_iff.
      destruct Hin as [H|[H|H]]; auto. }
    split.
    + cbn [textOf]. f_equal. exact Hloop.
    + constructor; [lia | exact Hpos].
Qed.

Lemma joinComma_nonempty (p : jsstring) (ps : list jsstring) :
  p <> [] -> joinComma (p :: ps) <> [].
Proof.
  intros Hp. destruct ps; simpl; [assumption|]. now destruct p.
Qed.

Lemma mtfIndices_nonempty (chars alphabet : list jsstring) :
  chars <> [] -> mtfIndices chars alphabet <> [].
Proof. destruct chars; [congruence | discriminate]. Qed.

(** The round trip on the two functions, for a text that is not empty
    and the alphabet the forward transform works with. *)
Lemma inverse_of_forward (text : jsstring) :
  text <> [] ->
  inverseMoveToFrontTransform
    (TransformResult.transformed (moveToFrontTransform text))
    (sortedAlphabet text)
  = Return text.
Proof.
  intros Hne. destruct text as [|c t]; [congruence|].
  set (text := c :: t) in *.
  change (TransformResult.transformed (moveToFrontTransform text))
    with (joinComma (map numberToString
                       (mtfIndices (codePoints text) (sortedAlphabet text)))).
  destruct (mtf_loops_agree (codePoints text) (sortedAlphabet text)
              (sortedAlphabet_In text)) as [Hloop Hpos].
  pose proof (mtfIndices_nonempty (codePoints text) (sortedAlphabet text)
                (codePoints_nonempty text Hne)) as Hidx.
  remember (mtfIndices (codePoints text) (sortedAlphabet text)) as indices.
  destruct indices as [|z zs]; [congruence|].
  unfold inverseMoveToFrontTransform.
  assert (Hj : joinComma (map numberToString (z :: zs)) <> []).
  { apply joinComma_nonempty. unfold numberToString.
    destruct (z <? 0); [discriminate | apply digitsOfN_nonempty]. }
  destruct (joinComma (map numberToString (z :: zs))) as [|u us] eqn:Ej;
    [congruence|].
  rewrite <- Ej, splitComma_joinComma.
  - rewrite numbersOf_numberToString by assumption.
    rewrite Hloop, codePoints_concat. reflexivity.
  - discriminate.
  - now apply numberToString_commaFree.
Qed.

End MoveToFront.

(** ** The last column and the primary index

    The forward transform finds the sentinel where the specification says
    it is: at the primary index of the last column. *)

Section LastColumn.

Lemma generateRotations_In (s : jsstring) (r : Rotation) :
  In r (generateRotations s) ->
  length (rotation r) = length s /\ (index r = 0%nat -> rotation r = s).
Proof.
  unfold generateRotations. rewrite in_map_iff. intros (i & <- & Hi).
  apply in_seq in Hi. cbn [rotation index]. split.
  - rewrite length_app, length_skipn, length_firstn. lia.
  - intros ->. cbn [skipn firstn]. apply app_nil_r.
Qed.

Lemma generateRotations_first (s : jsstring) :
  s <> [] -> exists r, In r (generateRotations s) /\ index r = 0%nat.
Proof.
  intros Hs. exists (mkRotation (skipn 0 s ++ firstn 0 s) 0). split; [|reflexivity].
  unfold generateRotations. apply in_map_iff. exists 0%nat. split; [reflexivity|].
  apply in_seq. destruct s; [congruence | simpl; lia].
Qed.

Lemma at_last (s : jsstring) (c : codeunit) :
  at_ (s ++ [c]) (lengthOf (s ++ [c]) - 1) = Some c.
Proof.
  unfold lengthOf. rewrite length_app. cbn [length].
  replace (Z.of_nat (length s + 1) - 1) with (Z.of_nat (length s)) by lia.
  rewrite at_nth, nth_error_app2, Nat.sub_diag by lia. reflexivity.
Qed.

Lemma at_defined (s : jsstring) :
  s <> [] -> exists c, at_ s (lengthOf s - 1) = Some c.
Proof.
  intros Hs. destruct (exists_last Hs) as (s' & c & ->).
  exists c. apply at_last.
Qed.

Lemma at_app_left (acc : jsstring) (p : Z) (c x : codeunit) :
  at_ acc p = Some x -> at_ (acc ++ [c]) p = Some x.
Proof.
  unfold at_. destruct (p <? 0); [discriminate|]. intros H.
  rewrite nth_error_app1; [assumption|].
  apply nth_error_Some. congruence.
Qed.

Lemma lastColumnFrom_sentinel (rotations : list Rotation) :
  forall (i : Z) (acc : jsstring) (p : Z),
    i = lengthOf acc ->
    (forall r, In r rotations ->
       exists c, at_ (rotation r) (lengthOf (rotation r) - 1) = Some c
                 /\ (index r = 0%nat -> c = dollar)) ->
    at_ acc p = Some dollar \/ (exists r, In r rotations /\ index r = 0%nat) ->
    at_ (fst (lastColumnFrom rotations i acc p))
        (snd (lastColumnFrom rotations i acc p)) = Some dollar
    /\ length (fst (lastColumnFrom rotations i acc p))
       = (length acc + length rotations)%nat.
Proof.
  induction rotations as [|r rest IH]; intros i acc p Hi Hrot Hfound.
  - cbn [lastColumnFrom fst snd length]. split; [|lia].
    destruct Hfound as [H|(r & [] & _)]. exact H.
  - cbn [lastColumnFrom].
    destruct (Hrot r (or_introl eq_refl)) as (c & Hc & Hzero).
    unfold charAtText. rewrite Hc.
    destruct (IH (i + 1) (acc ++ [c])
                (if Nat.eqb (index r) 0 then i else p)) as [Hat Hlen].
    + unfold lengthOf in *. rewrite length_app. cbn [length]. lia.
    + intros r' Hr'. apply Hrot. now right.
    + destruct (Nat.eqb_spec (index r) 0) as [E|NE].
      * left. rewrite (Hzero E) in *. subst i. unfold lengthOf.
        rewrite at_nth, nth_error_app2, Nat.sub_diag by lia. reflexivity.
      * destruct Hfound as [H|(r' & [<-|Hr'] & E')].
        -- left. now apply at_app_left.
        -- congruence.
        -- right. now exists r'.
    + split; [exact Hat|]. rewrite Hlen, length_app. cbn [length]. lia.
Qed.

(** The sentinel is in the last column at the primary index, and the
    column has one unit more than the text. *)
Lemma lastColumn_sentinel (text : jsstring) :
  at_ (fst (lastColumn text)) (snd (lastColumn text)) = Some dollar
  /\ length (fst (lastColumn text)) = S (length text).
Proof.
  unfold lastColumn.
  destruct (lastColumnFrom_sentinel (sortedRotations text) 0 [] 0) as [Hat Hlen].
  - reflexivity.
  - intros r Hr. unfold sortedRotations in Hr. rewrite sort_In in Hr.
    destruct (generateRotations_In _ _ Hr) as [Hl Hz].
    destruct (at_defined (rotation r)) as (c & Hc).
    { intros E. rewrite E, length_app in Hl. simpl in Hl. lia. }
    exists c. split; [exact Hc|]. intros E. rewrite (Hz E) in Hc.
    rewrite at_last in Hc. congruence.
  - right. destruct (generateRotations_first (text ++ [dollar])) as (r & Hr & E).
    { now destruct text. }
    exists r. split; [|exact E]. unfold sortedRotations. now rewrite sort_In.
  - split; [exact Hat|]. rewrite Hlen. cbn [length].
    unfold sortedRotations.
    rewrite sort_length. unfold generateRotations.
    rewrite length_map, length_seq, length_app. cbn [length]. lia.
Qed.

(** What the forward transform returns: the primary index of the column,
    and the column without its last unit. *)
Lemma burrowsWheelerTransform_lastColumn (text : jsstring) :
  text <> [] ->
  TransformResult.transformed (burrowsWheelerTransform text)
  = dropLast (fst (lastColumn text))
  /\ TransformResult.primaryIndex (burrowsWheelerTransform text)
     = snd (lastColumn text).
Proof.
  destruct text as [|c t]; [congruence|]. intros _.
  unfold burrowsWheelerTransform, lastColumn.
  destruct (lastColumnFrom (sortedRotations (c :: t)) 0 [] 0) as [L p].
  split; reflexivity.
Qed.

Lemma at_dropLast (s : jsstring) (p : Z) (x : codeunit) :
  at_ s p = Some x -> p <> lengthOf s - 1 -> at_ (dropLast s) p = Some x.
Proof.
  intros Hat Hp. destruct s as [|c s'] using rev_ind.
  - unfold at_ in Hat. destruct (p <? 0); [discriminate|].
    now destruct (Z.to_nat p).
  - unfold dropLast. rewrite removelast_last.
    unfold lengthOf in Hp. rewrite length_app in Hp. cbn [length] in Hp.
    unfold at_ in *. destruct (Z.ltb_spec p 0); [discriminate|].
    assert (Hlt : (Z.to_nat p < length (s' ++ [c]))%nat)
      by (apply nth_error_Some; congruence).
    rewrite length_app in Hlt. cbn [length] in Hlt.
    rewrite nth_error_app1 in Hat by lia. exact Hat.
Qed.

(** Unless the sentinel is the last unit of the column, the text that the
    forward transform returns still holds it, at the primary index. *)
Lemma burrowsWheelerTransform_keeps_sentinel (text : jsstring) :
  text <> [] ->
  TransformResult.primaryIndex (burrowsWheelerTransform text) <> lengthOf text ->
  at_ (TransformResult.transformed (burrowsWheelerTransform text))
      (TransformResult.primaryIndex (burrowsWheelerTransform text))
  = Some dollar.
Proof.
  intros Hne Hp.
  destruct (burrowsWheelerTransform_lastColumn text Hne) as [Et Ep].
  destruct (lastColumn_sentinel text) as [Hat Hlen].
  rewrite Et, Ep in *. apply at_dropLast; [exact Hat|].
  unfold lengthOf in *. rewrite Hlen. lia.
Qed.

End LastColumn.

(** ** Run-length coding away from digits

    The decoder undoes the encoder on every text that holds no decimal
    digit: a count is then the only place where a digit occurs. *)

Section RunLength.

Lemma digitsValue_app (ds : jsstring) (d : codeunit) :
  digitsValue (ds ++ [d]) = digitStep (digitsValue ds) d.
Proof. unfold digitsValue. now rewrite fold_left_app. Qed.

Lemma digitsLoop_run (next : jsstring -> outcome jsstring) (c : codeunit)
  (rest : jsstring) (ds : jsstring) :
  forall countStr,
    forallb isDigit ds = true ->
    isDigit c = false ->
    digitsLoop next countStr (ds ++ c :: rest)
    = repeatChar c (digitsValue (countStr ++ ds)) (next rest).
Proof.
  induction ds as [|d ds IH]; intros countStr Hds Hc; simpl.
  - now rewrite Hc, app_nil_r.
  - simpl in Hds. apply andb_true_iff in Hds as [Hd Hds].
    rewrite Hd, IH, <- app_assoc by assumption. reflexivity.
Qed.

Lemma decodeFrom_run (c : codeunit) (rest ds : jsstring) :
  ds <> [] ->
  forallb isDigit ds = true ->
  isDigit c = false ->
  decodeFrom (ds ++ c :: rest) = repeatChar c (digitsValue ds) (decodeFrom rest).
Proof.
  destruct ds as [|d ds]; [congruence|]. intros _ Hds Hc.
  simpl in Hds. apply andb_true_iff in Hds as [Hd Hds].
  cbn [app decodeFrom]. destruct (ds ++ c :: rest) eqn:E.
  - now destruct ds.
  - rewrite Hd, <- E. now apply digitsLoop_run.
Qed.

Lemma decodeFrom_literal (c : codeunit) (rest : jsstring) :
  isDigit c = false ->
  decodeFrom (c :: rest)
  = bind (decodeFrom rest) (fun decoded => Return (c :: decoded)).
Proof.
  intros Hc. cbn [decodeFrom]. destruct rest; [reflexivity|]. now rewrite Hc.
Qed.

Lemma decodeFrom_emitRun (count : Z) (c : codeunit) (rest : jsstring) :
  1 <= count <= Z.of_N maxStringLength ->
  isDigit c = false ->
  decodeFrom (emitRun count c ++ rest)
  = bind (decodeFrom rest)
      (fun decoded => Return (repeat c (Z.to_nat count) ++ decoded)).
Proof.
  intros Hcount Hc. unfold emitRun. destruct (Z.ltb_spec 1 count) as [Hgt|Hle].
  - unfold numberToString. destruct (Z.ltb_spec count 0); [lia|].
    rewrite <- app_assoc. cbn [app].
    rewrite decodeFrom_run;
      [| apply digitsOfN_nonempty | apply digitsOfN_digits | assumption].
    rewrite digitsOfN_value. unfold repeatChar.
    destruct (N.leb_spec (Z.to_N count) maxStringLength); [|lia].
    now rewrite Z_N_nat.
  - assert (count = 1) by lia. subst count. cbn [app].
    now apply decodeFrom_literal.
Qed.

Lemma decodeFrom_encodeRuns (rest : jsstring) :
  forall (c : codeunit) (count : Z),
    isDigit c = false ->
    digitFree rest = true ->
    1 <= count ->
    count + lengthOf rest <= Z.of_N maxStringLength ->
    decodeFrom (encodeRuns rest c count)
    = Return (repeat c (Z.to_nat count) ++ rest).
Proof.
  unfold digitFree, lengthOf.
  induction rest as [|d rest IH]; intros c count Hc Hfree Hcount Hlen;
    cbn [encodeRuns].
  - rewrite <- (app_nil_r (emitRun count c)).
    cbn [length] in Hlen.
    rewrite decodeFrom_emitRun by (auto; lia). reflexivity.
  - cbn [forallb length] in Hfree, Hlen.
    apply andb_true_iff in Hfree as [Hd Hfree]. apply negb_true_iff in Hd.
    unfold codeunit_eqb. destruct (N.eqb_spec d c) as [->|Hneq].
    + rewrite IH by (auto; lia).
      replace (Z.to_nat (count + 1)) with (S (Z.to_nat count)) by lia.
      cbn [repeat]. rewrite repeat_cons, <- app_assoc. reflexivity.
    + rewrite decodeFrom_emitRun by (auto; lia).
      rewrite IH by (auto; lia). reflexivity.
Qed.

(** A text of two digits or more is read as a count with no character
    after it. *)
Lemma digitsLoop_end (next : jsstring -> outcome jsstring) (ds : jsstring) :
  forall countStr,
    forallb isDigit ds = true -> digitsLoop next countStr ds = TypeError.
Proof.
  induction ds as [|d ds IH]; intros countStr Hds; [reflexivity|].
  cbn [forallb] in Hds. apply andb_true_iff in Hds as [Hd Hds].
  cbn [digitsLoop]. rewrite Hd. now apply IH.
Qed.

Lemma decodeFrom_digits_only (ds : jsstring) :
  forallb isDigit ds = true -> (2 <= length ds)%nat ->
  decodeFrom ds = TypeError.
Proof.
  destruct ds as [|c [|d ds]]; cbn [length]; try lia. intros Hds _.
  cbn [forallb] in Hds. apply andb_true_iff in Hds as [Hc Hds].
  cbn [decodeFrom]. rewrite Hc. now apply digitsLoop_end.
Qed.

Lemma runLengthDecode_decodeFrom (encoded : jsstring) :
  runLengthDecode encoded = decodeFrom encoded.
Proof. now destruct encoded. Qed.

(** X16: the round trip of the run-length pair on texts without digits
    (and of a length a string can have): decoding the encoded text gives
    the text back. *)
Lemma rle_round_trip_digit_free (text : jsstring) :
  digitFree text = true ->
  lengthOf text <= Z.of_N maxStringLength ->
  rleRoundTrip text = Return text.
Proof.
  intros Hfree Hlen. unfold rleRoundTrip. rewrite runLengthDecode_decodeFrom.
  destruct text as [|c rest]; [reflexivity|].
  cbn [runLengthEncode TransformResult.transformed].
  unfold digitFree in Hfree. cbn [forallb] in Hfree.
  apply andb_true_iff in Hfree as [Hc Hfree]. apply negb_true_iff in Hc.
  unfold lengthOf in Hlen. cbn [length] in Hlen.
  rewrite decodeFrom_encodeRuns; auto; unfold lengthOf; lia.
Qed.

End RunLength.

(** ** The pipeline record *)

Section Pipeline.

Lemma bind_Return {A : Type} (m : outcome A) : bind m Return = m.
Proof. now destruct m. Qed.

Lemma decompressText_four (s0 s1 s2 s3 : CompressionStep.t)
  (rest : list CompressionStep.t) :
  decompressText (s0 :: s1 :: s2 :: s3 :: rest) = invertSteps s1 s2 s3.
Proof. reflexivity. Qed.

Lemma decompressText_short (steps : list CompressionStep.t) :
  (length steps < 4)%nat -> decompressText steps = Return [].
Proof.
  intros H. unfold decompressText.
  destruct (Nat.ltb_spec (length steps) 4); [reflexivity | lia].
Qed.

Lemma at_least_four (steps : list CompressionStep.t) :
  (4 <= length steps)%nat ->
  exists s0 s1 s2 s3 rest, steps = s0 :: s1 :: s2 :: s3 :: rest.
Proof.
  destruct steps as [|s0 [|s1 [|s2 [|s3 rest]]]]; simpl; try lia.
  intros _. now exists s0, s1, s2, s3, rest.
Qed.

End Pipeline.

(** C7: for every text, [compressText] returns exactly four steps, named
    Original, BWT, MTF and RLE in this order, and the input of each step
    after the first is the output of the step before it. *)
Theorem compressText_four_steps (text : jsstring) :
  length (compressText text) = 4%nat
  /\ map CompressionStep.name (compressText text)
     = [str "Original"; str "BWT"; str "MTF"; str "RLE"]
  /\ chained (compressText text).
Proof.
  split; [reflexivity|]. split; [reflexivity|].
  unfold compressText. cbn [chained CompressionStep.input CompressionStep.output].
  repeat split.
Qed.

(** C10, as stated, fails: a sequence of more than four steps can make
    [decompressText] throw.  The five-step record made of the record of
    ["abcdefghijk"] and one more step ends in a [TypeError], the one of
    [runLengthDecode] on its fourth output ["10,1,2,3,4,5,6,7,8,9,10"]. *)
Lemma decompressText_long_record_throws :
  let steps :=
    compressText (str "abcdefghijk") ++ [CompressionStep.make [] [] [] None None] in
  (4 < length steps)%nat
  /\ option_map CompressionStep.output (nth_error steps 3)
     = Some (str "10,1,2,3,4,5,6,7,8,9,10")
  /\ decompressText steps = TypeError.
Proof. vm_compute. repeat split. lia. Qed.

(** C10, amended: a sequence of more than four steps is not rejected for
    its length.  The steps past index 3 are ignored: the outcome, a string
    or the exception of one of the three inverse functions, is the one of
    the first four steps, that is, [runLengthDecode] of [steps[3].output],
    then the inverse MTF with the alphabet of [steps[2]] when there is one,
    then the inverse BWT with the primary index of [steps[1]] when there is
    one.  The early return (the empty string) is for the sequences of fewer
    than four steps. *)
Theorem decompressText_ignores_extra_steps
  (s0 s1 s2 s3 s4 : CompressionStep.t) (rest short : list CompressionStep.t) :
  let steps := s0 :: s1 :: s2 :: s3 :: s4 :: rest in
  decompressText steps = decompressText [s0; s1; s2; s3]
  /\ decompressText steps
     = bind (runLengthDecode (CompressionStep.output s3)) (fun decoded =>
       bind (match optionalKey Metadata.alphabet (CompressionStep.metadata s2) with
             | Some alphabet => inverseMoveToFrontTransform decoded alphabet
             | None => Return decoded
             end) (fun indicesInverted =>
       match optionalKey Metadata.primaryIndex (CompressionStep.metadata s1) with
       | Some primaryIndex =>
           inverseBurrowsWheelerTransform indicesInverted primaryIndex
       | None => Return indicesInverted
       end))
  /\ ((length short < 4)%nat -> decompressText short = Return []).
Proof.
  intros steps. split; [reflexivity|]. split; [reflexivity|].
  apply decompressText_short.
Qed.

(** Two five-step records, the one of ["a"] with a step added, which gives
    ["a"] back, and the one of ["abcdefghijk"] with a step added, which
    throws as its first four steps do; and a two-step record. *)
Lemma decompressText_ignores_extra_steps_witness :
  let blank := CompressionStep.make [] [] [] None None in
  let record (text : jsstring) := compressText text in
  let step (text : jsstring) (i : nat) := nth i (record text) blank in
  decompressText (record (str "a") ++ [blank]) = Return (str "a")
  /\ decompressText (record (str "abcdefghijk") ++ [blank])
     = decompressText (record (str "abcdefghijk"))
  /\ decompressText (record (str "abcdefghijk") ++ [blank]) = TypeError
  /\ decompressText (firstn 2 (record (str "a"))) = Return [].
Proof.
  intros blank record step.
  pose proof (decompressText_ignores_extra_steps
                (step (str "a") 0%nat) (step (str "a") 1%nat)
                (step (str "a") 2%nat) (step (str "a") 3%nat) blank []
                (firstn 2 (record (str "a")))) as (_ & Ha & Hshort).
  pose proof (decompressText_ignores_extra_steps
                (step (str "abcdefghijk") 0%nat) (step (str "abcdefghijk") 1%nat)
                (step (str "abcdefghijk") 2%nat) (step (str "abcdefghijk") 3%nat)
                blank [] []) as (Hsame & Hk & _).
  split; [|split; [|split]].
  - change (record (str "a") ++ [blank])
      with [step (str "a") 0%nat; step (str "a") 1%nat; step (str "a") 2%nat;
            step (str "a") 3%nat; blank].
    rewrite Ha. vm_compute. reflexivity.
  - exact Hsame.
  - change (record (str "abcdefghijk") ++ [blank])
      with [step (str "abcdefghijk") 0%nat; step (str "abcdefghijk") 1%nat;
            step (str "abcdefghijk") 2%nat; step (str "abcdefghijk") 3%nat; blank].
    rewrite Hk. vm_compute. reflexivity.
  - apply Hshort. vm_compute. lia.
Defined.

(** C3, as stated, fails: a record that is too short, and a four-step
    record whose MTF step has no alphabet and whose BWT step has no primary
    index, both make [decompressText] return a string. *)
Lemma decompressText_accepts_malformed :
  let bare := CompressionStep.make [] [] (str "3ab") None None in
  (length (@nil CompressionStep.t) <> 4%nat
   /\ decompressText [] = Return [])
  /\ (optionalKey Metadata.alphabet (CompressionStep.metadata bare) = None
      /\ optionalKey Metadata.primaryIndex (CompressionStep.metadata bare) = None
      /\ decompressText [bare; bare; bare; bare] = Return (str "aaab")).
Proof.
  intros bare. repeat split; try reflexivity. discriminate.
Qed.

(** C3, amended: [decompressText] reports no structural failure.  With
    fewer than four steps it returns the empty string.  With four steps or
    more it decodes [steps[3].output]; when the alphabet of [steps[2]] is
    absent the MTF inversion is skipped, when the primary index of
    [steps[1]] is absent the BWT inversion is skipped, and what has been
    inverted so far is returned. *)
Theorem decompressText_skips_missing_metadata
  (s0 s1 s2 s3 : CompressionStep.t) (rest short : list CompressionStep.t) :
  let steps := s0 :: s1 :: s2 :: s3 :: rest in
  let decoded := runLengthDecode (CompressionStep.output s3) in
  let alphabet := optionalKey Metadata.alphabet (CompressionStep.metadata s2) in
  let primaryIndex :=
    optionalKey Metadata.primaryIndex (CompressionStep.metadata s1) in
  ((length short < 4)%nat -> decompressText short = Return [])
  /\ (alphabet = None -> primaryIndex = None -> decompressText steps = decoded)
  /\ (forall p, alphabet = None -> primaryIndex = Some p ->
        decompressText steps
        = bind decoded (fun current => inverseBurrowsWheelerTransform current p))
  /\ (forall a, alphabet = Some a -> primaryIndex = None ->
        decompressText steps
        = bind decoded (fun current => inverseMoveToFrontTransform current a)).
Proof.
  intros steps decoded alphabet primaryIndex.
  split; [apply decompressText_short|].
  unfold steps. rewrite decompressText_four. unfold invertSteps.
  fold decoded alphabet primaryIndex.
  repeat split.
  - intros -> ->. destruct decoded; reflexivity.
  - intros p -> ->. destruct decoded; reflexivity.
  - intros a -> ->. destruct decoded as [current| | |]; try reflexivity.
    simpl. apply bind_Return.
Qed.

(** The record of ["a"] with the metadata of its MTF step, of its BWT step,
    or of both taken away. *)
Lemma decompressText_skips_missing_metadata_witness :
  let steps := compressText (str "a") in
  let strip (s : CompressionStep.t) :=
    CompressionStep.make (CompressionStep.name s) (CompressionStep.input s)
      (CompressionStep.output s) (CompressionStep.ratio s) None in
  let s0 := nth 0 steps (strip (hd (CompressionStep.make [] [] [] None None) steps)) in
  let s1 := nth 1 steps s0 in
  let s2 := nth 2 steps s0 in
  let s3 := nth 3 steps s0 in
  decompressText [s0; s1] = Return []
  /\ decompressText [s0; strip s1; strip s2; s3] = Return (str "0")
  /\ decompressText [s0; s1; strip s2; s3] = Return (str "0")
  /\ decompressText [s0; strip s1; s2; s3] = Return (str "a").
Proof.
  intros steps strip s0 s1 s2 s3.
  split.
  { apply (decompressText_skips_missing_metadata s0 s1 s2 s3 [] [s0; s1]).
    vm_compute. lia. }
  split.
  { rewrite (proj1 (proj2 (decompressText_skips_missing_metadata
                             s0 (strip s1) (strip s2) s3 [] [])));
      reflexivity. }
  split.
  { rewrite (proj1 (proj2 (proj2 (decompressText_skips_missing_metadata
                                    s0 s1 (strip s2) s3 [] []))) 1);
      reflexivity. }
  rewrite (proj2 (proj2 (proj2 (decompressText_skips_missing_metadata
                                  s0 (strip s1) s2 s3 [] []))) [str "a"]);
    reflexivity.
Defined.

(** ** Move-to-front round trip *)

(** C6, as stated, fails on the empty string: the forward transform returns
    no metadata there, so there is no alphabet to read. *)
Lemma mtf_round_trip_empty_text :
  TransformResult.metadata (moveToFrontTransform []) = None
  /\ mtfRoundTrip [] = TypeError
  /\ mtfRoundTrip [] <> Return [].
Proof. repeat split. discriminate. Qed.

(** C6, amended: for every string that is not empty, the inverse MTF
    applied to the indices of the forward MTF and to the alphabet of its
    metadata returns the string; for the empty string the forward transform
    has no metadata, and the inverse of its (empty) output is the empty
    string whatever alphabet it is given. *)
Theorem mtf_round_trip (text : jsstring) :
  (text <> [] -> mtfRoundTrip text = Return text)
  /\ (text = [] ->
      forall alphabet,
        inverseMoveToFrontTransform
          (TransformResult.transformed (moveToFrontTransform text)) alphabet
        = Return text).
Proof.
  split.
  - intros Hne. pose proof (inverse_of_forward text Hne) as Hinv.
    unfold mtfRoundTrip. destruct text as [|c t]; [congruence|].
    assert (Hm : requiredKey Metadata.alphabet
                   (TransformResult.metadata (moveToFrontTransform (c :: t)))
                 = Return (Some (sortedAlphabet (c :: t)))) by reflexivity.
    rewrite Hm. cbn [bind].
    destruct (TransformResult.transformed (moveToFrontTransform (c :: t)))
      as [|u us] eqn:E.
    + simpl in Hinv. congruence.
    + exact Hinv.
  - intros -> alphabet. reflexivity.
Qed.

Lemma mtf_round_trip_witness :
  (str "annb$a" <> [] /\ mtfRoundTrip (str "annb$a") = Return (str "annb$a"))
  /\ (forall alphabet,
        inverseMoveToFrontTransform
          (TransformResult.transformed (moveToFrontTransform [])) alphabet
        = Return []).
Proof.
  split.
  - assert (H : str "annb$a" <> []) by discriminate.
    split; [exact H | exact (proj1 (mtf_round_trip (str "annb$a")) H)].
  - exact (proj2 (mtf_round_trip []) eq_refl).
Defined.

(** ** The empty text *)

(** C8, as stated, fails: three of the four ratios of [compressText("")]
    are 0/0. *)
Lemma compress_empty_ratio_undefined :
  ~ Forall (fun step => ratioDefined step = true) (compressText []).
Proof.
  intros H. inversion H as [|? ? _ H1]; subst.
  inversion H1 as [|? ? Hbwt _]; subst. discriminate Hbwt.
Qed.

(** C8, amended: [compressText("")] returns four steps with empty outputs;
    the ratio of the Original step is 1 and the ratios of the BWT, MTF and
    RLE steps are [NaN] (0/0, computed without any exception);
    [decompressText] returns the empty string on this record. *)
Theorem compress_empty_text :
  length (compressText []) = 4%nat
  /\ map CompressionStep.output (compressText []) = [[]; []; []; []]
  /\ map CompressionStep.ratio (compressText [])
     = [Some (Quotient 1 1); Some NaN; Some NaN; Some NaN]
  /\ decompressText (compressText []) = Return [].
Proof. repeat split. Qed.

(** ** Run-length decoding past the end *)

(** C9: the decoder can read one position past the end of its input.  On
    ["12"] the two digits are taken as a count and the character after them
    is [undefined]; the same happens on the RLE output of an MTF string,
    here the one of ["k$abcdefghi"], which ends in the index 10. *)
Theorem runLengthDecode_reads_past_end :
  runLengthDecode (str "12") = TypeError
  /\ exists text,
       let mtf := TransformResult.transformed (moveToFrontTransform text) in
       let encoded := TransformResult.transformed (runLengthEncode mtf) in
       mtf = str "10,1,2,3,4,5,6,7,8,9,10"
       /\ encoded = mtf
       /\ runLengthDecode encoded = TypeError.
Proof.
  split; [reflexivity|]. exists (str "k$abcdefghi").
  vm_compute. repeat split.
Qed.

(** ** Defects shown by running the code *)

(** C2: on ["banana"] the last column is ["annb$aa"], with the sentinel at
    position 4, the primary index; the transform returns the column
    without its last character, ["annb$a"], not the column without the
    sentinel, ["annbaa"]. *)
Theorem bwt_banana :
  let r := burrowsWheelerTransform (str "banana") in
  lastColumn (str "banana") = (str "annb$aa", 4)
  /\ TransformResult.primaryIndex r = 4
  /\ TransformResult.transformed r = str "annb$a"
  /\ removeAt 4 (str "annb$aa") = str "annbaa"
  /\ TransformResult.transformed r <> str "annbaa".
Proof. vm_compute. repeat split. discriminate. Qed.

(** C4: the inverse BWT applied to the result of the forward BWT of
    ["banana"] returns ["ban$na"]: the sentinel is put after the last
    character of the transformed text, not at the primary index. *)
Theorem bwt_round_trip_banana :
  bwtRoundTrip (str "banana") = Return (str "ban$na")
  /\ bwtRoundTrip (str "banana") <> Return (str "banana").
Proof. vm_compute. split; [reflexivity | discriminate]. Qed.

(** C5: ["0,0"] is the MTF output for ["aa"]; the encoder leaves it as it
    is, and the decoder reads its first digit as a count: the result is
    ["0"]. *)
Theorem rle_round_trip_mtf_text :
  TransformResult.transformed (moveToFrontTransform (str "aa")) = str "0,0"
  /\ TransformResult.transformed (runLengthEncode (str "0,0")) = str "0,0"
  /\ rleRoundTrip (str "0,0") = Return (str "0")
  /\ rleRoundTrip (str "0,0") <> Return (str "0,0").
Proof. vm_compute. repeat split. discriminate. Qed.

(** C1: the pipeline does not give ["ab"] back (it returns ["$b"]), and on
    ["aa"] the decompression throws. *)
Theorem pipeline_round_trip_fails :
  str "ab" = [97; 98]%N
  /\ decompressText (compressText (str "ab")) = Return (str "$b")
  /\ decompressText (compressText (str "ab")) <> Return (str "ab")
  /\ decompressText (compressText (str "aa")) = TypeError.
Proof. vm_compute. repeat split. discriminate. Qed.

(* ================================================================== *)
(** * Further properties of the transforms *)

(** ** Forward BWT *)

Section ForwardBwt.

Lemma insertSorted_Permutation {A : Type} (cmp : A -> A -> comparison)
  (x : A) (l : list A) : Permutation (insertSorted cmp x l) (x :: l).
Proof.
  induction l as [|y l IH]; [reflexivity|]. cbn [insertSorted].
  destruct (cmp x y); try reflexivity.
  rewrite IH. apply perm_swap.
Qed.

Lemma sort_Permutation {A : Type} (cmp : A -> A -> comparison) (l : list A) :
  Permutation (sort cmp l) l.
Proof.
  induction l as [|x l IH]; [reflexivity|].
  cbn [sort fold_right]. fold (sort cmp l).
  rewrite insertSorted_Permutation. now constructor.
Qed.

Lemma lastColumnFrom_fst (rotations : list Rotation) :
  forall i acc p,
    fst (lastColumnFrom rotations i acc p) = acc ++ flat_map lastUnit rotations.
Proof.
  induction rotations as [|r rest IH]; intros i acc p; cbn [lastColumnFrom flat_map].
  - now rewrite app_nil_r.
  - rewrite IH, <- app_assoc. reflexivity.
Qed.

Lemma lastUnit_rotation (s : jsstring) (i : nat) (c : codeunit) :
  nth_error s i = Some c ->
  lastUnit (mkRotation (skipn (S i) s ++ firstn (S i) s) (S i)) = [c].
Proof.
  intros Hc. assert (Hi : (i < length s)%nat) by (apply nth_error_Some; congruence).
  unfold lastUnit, charAtText, lengthOf. cbn [rotation].
  rewrite length_app, length_skipn, length_firstn.
  replace (Z.of_nat (length s - S i + Nat.min (S i) (length s)) - 1)
    with (Z.of_nat (length s - 1)) by lia.
  rewrite at_nth, nth_error_app2 by (rewrite length_skipn; lia).
  rewrite length_skipn.
  replace (length s - 1 - (length s - S i))%nat with i by lia.
  rewrite nth_error_firstn.
  destruct (Nat.ltb_spec i (S i)); [|lia]. now rewrite Hc.
Qed.

Lemma lastUnits_shifted (s : jsstring) (m : nat) :
  (m <= length s)%nat ->
  flat_map (fun i => lastUnit (mkRotation (skipn (S i) s ++ firstn (S i) s) (S i)))
           (seq 0 m)
  = firstn m s.
Proof.
  induction m as [|m IH]; intros Hm; [reflexivity|].
  rewrite seq_S, flat_map_app, IH by lia. cbn [flat_map Nat.add].
  destruct (nth_error s m) as [c|] eqn:Hc.
  - rewrite (lastUnit_rotation s m c Hc), app_nil_r.
    symmetry. clear IH. revert s Hm Hc.
    induction m as [|m IH]; intros [|x s] Hm Hc; try discriminate.
    + now inversion Hc.
    + cbn [firstn app]. f_equal. apply IH; [simpl in Hm; lia | exact Hc].
  - apply nth_error_None in Hc. lia.
Qed.

Lemma lastUnits_generateRotations (s : jsstring) (c : codeunit) :
  flat_map lastUnit (generateRotations (s ++ [c])) = c :: s.
Proof.
  unfold generateRotations. rewrite flat_map_concat_map, map_map.
  rewrite <- flat_map_concat_map.
  rewrite length_app. cbn [length]. rewrite Nat.add_1_r.
  change (seq 0 (S (length s))) with (0%nat :: seq 1 (length s)).
  cbn [flat_map]. rewrite <- seq_shift, flat_map_concat_map, map_map.
  rewrite <- flat_map_concat_map.
  rewrite (lastUnits_shifted (s ++ [c]) (length s))
    by (rewrite length_app; simpl; lia).
  rewrite (firstn_app (length s) s [c]), Nat.sub_diag, firstn_all.
  cbn [firstn skipn]. rewrite !app_nil_r. unfold lastUnit. cbn [rotation].
  unfold charAtText. rewrite at_last. reflexivity.
Qed.

Lemma lastColumn_Permutation (text : jsstring) :
  Permutation (fst (lastColumn text)) (text ++ [dollar]).
Proof.
  unfold lastColumn. rewrite lastColumnFrom_fst. cbn [app].
  unfold sortedRotations.
  rewrite (Permutation_flat_map lastUnit
             (sort_Permutation compareRotations
                (generateRotations (text ++ [dollar])))).
  rewrite lastUnits_generateRotations.
  apply Permutation_cons_append.
Qed.

Lemma at_bounds {A : Type} (a : list A) (p : Z) (x : A) :
  at_ a p = Some x -> 0 <= p < Z.of_nat (length a).
Proof.
  unfold at_. destruct (Z.ltb_spec p 0) as [|Hp]; [discriminate|]. intros Hn.
  assert ((Z.to_nat p < length a)%nat) by (apply nth_error_Some; congruence).
  lia.
Qed.

End ForwardBwt.

(** X1: for a text that is not empty, the primary index lies between 0 and
    the length of the text, and the string of last units that the second
    loop builds (before its last unit is cut off) holds the sentinel at the
    primary index. *)
Theorem burrowsWheelerTransform_primaryIndex (text : jsstring) :
  text <> [] ->
  let r := burrowsWheelerTransform text in
  0 <= TransformResult.primaryIndex r <= lengthOf text
  /\ at_ (fst (lastColumn text)) (TransformResult.primaryIndex r) = Some dollar.
Proof.
  intros Hne r.
  destruct (burrowsWheelerTransform_lastColumn text Hne) as [_ Ep].
  destruct (lastColumn_sentinel text) as [Hat Hlen].
  subst r. rewrite Ep. split; [|exact Hat].
  apply at_bounds in Hat. unfold lengthOf. lia.
Qed.

Lemma burrowsWheelerTransform_primaryIndex_witness :
  str "abracadabra" <> []
  /\ 0 <= TransformResult.primaryIndex (burrowsWheelerTransform (str "abracadabra"))
       <= lengthOf (str "abracadabra")
  /\ at_ (fst (lastColumn (str "abracadabra")))
         (TransformResult.primaryIndex (burrowsWheelerTransform (str "abracadabra")))
     = Some dollar.
Proof.
  assert (H : str "abracadabra" <> []) by discriminate.
  split; [exact H|]. exact (burrowsWheelerTransform_primaryIndex _ H).
Defined.

(** X2: for a text that is not empty, the transformed text has the length
    of the text, and the metadata records this length and the number of
    rotations, one more. *)
Theorem burrowsWheelerTransform_length (text : jsstring) :
  text <> [] ->
  let r := burrowsWheelerTransform text in
  length (TransformResult.transformed r) = length text
  /\ optionalKey Metadata.originalLength (TransformResult.metadata r)
     = Some (lengthOf text)
  /\ optionalKey Metadata.rotations (TransformResult.metadata r)
     = Some (lengthOf text + 1).
Proof.
  intros Hne r.
  destruct (burrowsWheelerTransform_lastColumn text Hne) as [Et _].
  destruct (lastColumn_sentinel text) as [_ Hlen].
  subst r. rewrite Et. unfold dropLast.
  rewrite removelast_firstn_len, length_firstn, Hlen.
  split; [simpl; lia|].
  destruct text as [|c t]; [congruence|].
  unfold burrowsWheelerTransform.
  destruct (lastColumnFrom (sortedRotations (c :: t)) 0 [] 0) as [L p].
  cbn [TransformResult.metadata optionalKey Metadata.originalLength
       Metadata.rotations].
  split; [reflexivity|]. f_equal. unfold sortedRotations, generateRotations.
  rewrite sort_length, length_map, length_seq, length_app. unfold lengthOf.
  cbn [length]. lia.
Qed.

Lemma burrowsWheelerTransform_length_witness :
  str "abracadabra" <> []
  /\ length (TransformResult.transformed (burrowsWheelerTransform (str "abracadabra")))
     = length (str "abracadabra").
Proof.
  assert (H : str "abracadabra" <> []) by discriminate.
  split; [exact H|]. exact (proj1 (burrowsWheelerTransform_length _ H)).
Defined.

Section ForwardBwtContent.

Lemma lastColumn_split (text : jsstring) :
  text <> [] ->
  exists c,
    fst (lastColumn text)
    = TransformResult.transformed (burrowsWheelerTransform text) ++ [c]
    /\ at_ (fst (lastColumn text)) (lengthOf text) = Some c.
Proof.
  intros Hne.
  destruct (burrowsWheelerTransform_lastColumn text Hne) as [Et _].
  destruct (lastColumn_sentinel text) as [_ Hlen].
  rewrite Et. destruct (fst (lastColumn text)) as [|x L] using rev_ind;
    [discriminate|].
  exists x. unfold dropLast. rewrite removelast_last. split; [reflexivity|].
  rewrite length_app in Hlen. cbn [length] in Hlen.
  unfold lengthOf. replace (length text) with (length L) by lia.
  rewrite at_nth, nth_error_app2, Nat.sub_diag by lia. reflexivity.
Qed.

End ForwardBwtContent.

(** X4: when the primary index is the length of the text (the sentinel is
    the last unit of the column), the transformed text is a rearrangement
    of the text. *)
Theorem burrowsWheelerTransform_rearranges (text : jsstring) :
  text <> [] ->
  TransformResult.primaryIndex (burrowsWheelerTransform text) = lengthOf text ->
  Permutation (TransformResult.transformed (burrowsWheelerTransform text)) text.
Proof.
  intros Hne Hp.
  destruct (lastColumn_split text Hne) as (c & EL & Hc).
  destruct (burrowsWheelerTransform_lastColumn text Hne) as [_ Ep].
  destruct (lastColumn_sentinel text) as [Hat _].
  rewrite <- Ep, Hp, Hc in Hat. injection Hat as ->.
  pose proof (lastColumn_Permutation text) as HP. rewrite EL in HP.
  now apply Permutation_app_inv_r in HP.
Qed.

Lemma burrowsWheelerTransform_rearranges_witness :
  str "cba" <> []
  /\ TransformResult.primaryIndex (burrowsWheelerTransform (str "cba"))
     = lengthOf (str "cba")
  /\ Permutation (TransformResult.transformed (burrowsWheelerTransform (str "cba")))
                 (str "cba").
Proof.
  assert (H : str "cba" <> []) by discriminate.
  assert (H' : TransformResult.primaryIndex (burrowsWheelerTransform (str "cba"))
               = lengthOf (str "cba")) by (vm_compute; reflexivity).
  split; [exact H|]. split; [exact H'|].
  exact (burrowsWheelerTransform_rearranges _ H H').
Defined.

(** X3: when the primary index is not the length of the text, the
    transformed text still holds the sentinel, at the primary index, and
    has lost one unit of the text instead: with that unit put back, it is a
    rearrangement of the text and the sentinel. *)
Theorem burrowsWheelerTransform_loses_a_unit (text : jsstring) :
  text <> [] ->
  TransformResult.primaryIndex (burrowsWheelerTransform text) <> lengthOf text ->
  at_ (TransformResult.transformed (burrowsWheelerTransform text))
      (TransformResult.primaryIndex (burrowsWheelerTransform text))
  = Some dollar
  /\ exists c,
       In c text
       /\ Permutation (c :: TransformResult.transformed (burrowsWheelerTransform text))
                      (text ++ [dollar]).
Proof.
  intros Hne Hp. split; [now apply burrowsWheelerTransform_keeps_sentinel|].
  destruct (lastColumn_split text Hne) as (c & EL & Hc).
  pose proof (burrowsWheelerTransform_keeps_sentinel text Hne Hp) as Hkept.
  pose proof (lastColumn_Permutation text) as HP. rewrite EL in HP.
  set (tr := TransformResult.transformed (burrowsWheelerTransform text)) in *.
  exists c. split.
  - unfold at_ in Hkept.
    destruct (TransformResult.primaryIndex (burrowsWheelerTransform text) <? 0);
      [discriminate|].
    destruct (nth_error_split _ _ Hkept) as (l1 & l2 & Etr & _).
    rewrite Etr in HP.
    assert (HP' : Permutation (dollar :: (l1 ++ l2 ++ [c])) (dollar :: text)).
    { apply Permutation_trans with (l1 ++ dollar :: l2 ++ [c]);
        [apply Permutation_middle|].
      apply Permutation_trans with (text ++ [dollar]);
        [|apply Permutation_sym, Permutation_cons_append].
      rewrite <- app_assoc in HP. exact HP. }
    apply Permutation_cons_inv in HP'.
    apply (Permutation_in c HP'). rewrite !in_app_iff. simpl. auto.
  - rewrite <- HP. apply Permutation_cons_append.
Qed.

Lemma burrowsWheelerTransform_loses_a_unit_witness :
  str "banana" <> []
  /\ TransformResult.primaryIndex (burrowsWheelerTransform (str "banana"))
     <> lengthOf (str "banana")
  /\ at_ (TransformResult.transformed (burrowsWheelerTransform (str "banana")))
         (TransformResult.primaryIndex (burrowsWheelerTransform (str "banana")))
     = Some dollar
  /\ exists c,
       In c (str "banana")
       /\ Permutation
            (c :: TransformResult.transformed (burrowsWheelerTransform (str "banana")))
            (str "banana" ++ [dollar]).
Proof.
  assert (H : str "banana" <> []) by discriminate.
  assert (H' : TransformResult.primaryIndex (burrowsWheelerTransform (str "banana"))
               <> lengthOf (str "banana")) by (vm_compute; discriminate).
  split; [exact H|]. split; [exact H'|].
  exact (burrowsWheelerTransform_loses_a_unit _ H H').
Defined.

(** ** Inverse BWT *)

Section InverseBwt.

Lemma prependColumn_shape (column : jsstring) (table : list jsstring) (k : nat) :
  length table = length column ->
  Forall (fun row => length row = k) table ->
  length (prependColumn column table) = length column
  /\ Forall (fun row => length row = S k) (prependColumn column table).
Proof.
  unfold prependColumn. revert table.
  induction column as [|c column IH]; intros [|row table] Hlen Hrows;
    simpl in *; try discriminate; [split; [reflexivity | constructor]|].
  inversion Hrows as [|? ? Hrow Hrest]; subst.
  destruct (IH table) as [Hl Hf]; [lia | assumption|].
  split; [now rewrite Hl|]. constructor; [reflexivity | exact Hf].
Qed.

Lemma sort_Forall {A : Type} (cmp : A -> A -> comparison) (P : A -> Prop)
  (l : list A) : Forall P l -> Forall P (sort cmp l).
Proof.
  rewrite !Forall_forall. intros H x Hx. apply H. now rewrite sort_In in Hx.
Qed.

Lemma tableStep_iter (column : jsstring) (k : nat) :
  let table := Nat.iter k (tableStep column) (repeat [] (length column)) in
  length table = length column
  /\ Forall (fun row => length row = k) table.
Proof.
  induction k as [|k [Hl Hf]]; cbn [Nat.iter nat_rect].
  - split; [apply repeat_length|]. apply Forall_forall. intros row Hrow.
    now apply repeat_spec in Hrow as ->.
  - unfold tableStep at 1 3.
    destruct (prependColumn_shape column _ k Hl Hf) as [Hl' Hf'].
    split; [now rewrite sort_length | now apply sort_Forall].
Qed.

Lemma buildTable_shape (column : jsstring) :
  length (buildTable column) = length column
  /\ Forall (fun row => length row = length column) (buildTable column).
Proof. apply (tableStep_iter column (length column)). Qed.

End InverseBwt.

(** X5: on a text that is not empty, the inverse BWT returns exactly when
    the primary index lies between 0 and the length of the text; it then
    returns a string of the length of the text.  With any other primary
    index the row read from the table is [undefined] and the call throws. *)
Theorem inverseBurrowsWheelerTransform_domain (transformed : jsstring)
  (primaryIndex : Z) :
  transformed <> [] ->
  (0 <= primaryIndex <= lengthOf transformed ->
   exists original,
     inverseBurrowsWheelerTransform transformed primaryIndex = Return original
     /\ length original = length transformed)
  /\ (primaryIndex < 0 \/ lengthOf transformed < primaryIndex ->
      inverseBurrowsWheelerTransform transformed primaryIndex = TypeError).
Proof.
  intros Hne. destruct transformed as [|c t]; [congruence|].
  set (transformed := c :: t) in *.
  destruct (buildTable_shape (transformed ++ [dollar])) as [Hl Hf].
  rewrite length_app in Hl, Hf. cbn [length] in Hl, Hf.
  unfold inverseBurrowsWheelerTransform, lengthOf. fold transformed.
  change (match transformed with
          | [] => Return []
          | _ :: _ =>
              match at_ (buildTable (transformed ++ [dollar])) primaryIndex with
              | Some originalWithMarker => Return (dropLast originalWithMarker)
              | None => TypeError
              end
          end)
    with (match at_ (buildTable (transformed ++ [dollar])) primaryIndex with
          | Some originalWithMarker => Return (dropLast originalWithMarker)
          | None => @TypeError jsstring
          end).
  split.
  - intros Hp.
    destruct (at_ (buildTable (transformed ++ [dollar])) primaryIndex)
      as [row|] eqn:Hrow.
    + exists (dropLast row). split; [reflexivity|].
      unfold at_ in Hrow. destruct (primaryIndex <? 0); [discriminate|].
      apply nth_error_In in Hrow. rewrite Forall_forall in Hf.
      unfold dropLast. rewrite removelast_firstn_len, length_firstn, (Hf row Hrow).
      lia.
    + unfold at_ in Hrow. destruct (Z.ltb_spec primaryIndex 0); [lia|].
      apply nth_error_None in Hrow. lia.
  - intros Hp.
    destruct (at_ (buildTable (transformed ++ [dollar])) primaryIndex)
      as [row|] eqn:Hrow; [|reflexivity].
    apply at_bounds in Hrow. lia.
Qed.

Lemma inverseBurrowsWheelerTransform_domain_witness :
  str "aa" <> []
  /\ (exists original,
        inverseBurrowsWheelerTransform (str "aa") 2 = Return original
        /\ length original = length (str "aa"))
  /\ inverseBurrowsWheelerTransform (str "aa") 3 = TypeError
  /\ inverseBurrowsWheelerTransform (str "aa") (-1) = TypeError.
Proof.
  assert (H : str "aa" <> []) by discriminate.
  split; [exact H|]. split.
  - apply (proj1 (inverseBurrowsWheelerTransform_domain (str "aa") 2 H)).
    vm_compute. split; discriminate.
  - split.
    + apply (proj2 (inverseBurrowsWheelerTransform_domain (str "aa") 3 H)).
      right. vm_compute. reflexivity.
    + apply (proj2 (inverseBurrowsWheelerTransform_domain (str "aa") (-1) H)).
      left. lia.
Defined.

(** ** Forward MTF *)

Section ForwardMtf.

Lemma lexCompare_eq (a : list N) : forall b, lexCompare a b = Eq -> a = b.
Proof.
  induction a as [|x a IH]; intros [|y b]; simpl; try discriminate; auto.
  destruct (N.compare x y) eqn:E; try discriminate.
  apply N.compare_eq in E. subst y. intros H. f_equal. now apply IH.
Qed.

Lemma lexCompare_Gt (a : list N) : forall b, lexCompare a b = Gt -> lexCompare b a = Lt.
Proof.
  induction a as [|x a IH]; intros [|y b]; simpl; try discriminate; auto.
  rewrite (N.compare_antisym x y).
  destruct (N.compare x y); simpl; try discriminate; auto.
Qed.

Lemma uniqueAcc_NoDup (xs : list jsstring) :
  forall seen, NoDup seen -> NoDup (uniqueAcc seen xs).
Proof.
  induction xs as [|x xs IH]; intros seen Hseen; simpl.
  - now apply NoDup_rev.
  - destruct (memb x seen) eqn:E; [now apply IH|].
    apply IH. constructor; [|assumption].
    intros Hin. apply memb_In in Hin. congruence.
Qed.

Lemma insertSorted_HdRel (x y : jsstring) (l : list jsstring) :
  defaultCompare y x <> Gt ->
  HdRel (fun a b => defaultCompare a b <> Gt) y l ->
  HdRel (fun a b => defaultCompare a b <> Gt) y (insertSorted defaultCompare x l).
Proof.
  intros Hyx Hl. destruct l as [|z l]; cbn [insertSorted].
  - now constructor.
  - inversion Hl; subst. destruct (defaultCompare x z); now constructor.
Qed.

Lemma insertSorted_Sorted (x : jsstring) (l : list jsstring) :
  Sorted (fun a b => defaultCompare a b <> Gt) l ->
  Sorted (fun a b => defaultCompare a b <> Gt) (insertSorted defaultCompare x l).
Proof.
  induction l as [|y l IH]; intros Hl; cbn [insertSorted].
  - repeat constructor.
  - inversion Hl as [|? ? Hs Hh]; subst.
    destruct (defaultCompare x y) eqn:E.
    + constructor; [assumption|]. constructor. congruence.
    + constructor; [assumption|]. constructor. congruence.
    + constructor; [now apply IH|].
      apply insertSorted_HdRel; [|assumption].
      unfold defaultCompare in *. rewrite (lexCompare_Gt _ _ E). discriminate.
Qed.

Lemma sort_Sorted (l : list jsstring) :
  Sorted (fun a b => defaultCompare a b <> Gt) (sort defaultCompare l).
Proof.
  induction l as [|x l IH]; [constructor|].
  cbn [sort fold_right]. fold (sort defaultCompare l).
  now apply insertSorted_Sorted.
Qed.

Lemma Sorted_strict (l : list jsstring) :
  NoDup l ->
  Sorted (fun a b => defaultCompare a b <> Gt) l ->
  Sorted (fun a b => defaultCompare a b = Lt) l.
Proof.
  induction l as [|x l IH]; intros Hnd Hs; [constructor|].
  inversion Hnd as [|? ? Hx Hnd']; subst.
  inversion Hs as [|? ? Hs' Hh]; subst.
  constructor; [now apply IH|].
  destruct l as [|y l]; constructor. inversion Hh as [|? ? Hxy]; subst.
  destruct (defaultCompare x y) eqn:E; [|reflexivity | congruence].
  apply lexCompare_eq in E. subst y. elim Hx. now left.
Qed.

Lemma sortedAlphabet_spec (text : jsstring) :
  NoDup (sortedAlphabet text)
  /\ (forall c, In c (sortedAlphabet text) <-> In c (codePoints text))
  /\ Sorted (fun a b => defaultCompare a b = Lt) (sortedAlphabet text).
Proof.
  assert (Hnd : NoDup (sortedAlphabet text)).
  { unfold sortedAlphabet.
    apply (Permutation_NoDup (Permutation_sym (sort_Permutation _ _))).
    apply uniqueAcc_NoDup. constructor. }
  split; [exact Hnd|]. split.
  - intros c. unfold sortedAlphabet. now rewrite sort_In, unique_In.
  - apply Sorted_strict; [exact Hnd | apply sort_Sorted].
Qed.

Lemma mtfIndices_range (chars : list jsstring) :
  forall alphabet : list jsstring,
    (forall c, In c chars -> In c alphabet) ->
    length (mtfIndices chars alphabet) = length chars
    /\ Forall (fun z => 0 <= z < Z.of_nat (length alphabet))
              (mtfIndices chars alphabet).
Proof.
  induction chars as [|char rest IH]; intros alphabet Hin.
  - split; [reflexivity | constructor].
  - destruct (indexOf_found alphabet char (Hin char (or_introl eq_refl)))
      as (l1 & l2 & Ea & Ei).
    cbn [mtfIndices]. rewrite Ei. unfold moveToFront.
    rewrite (spliceOne_at alphabet l1 l2 char Ea).
    destruct (IH (char :: l1 ++ l2)) as [Hlen Hrange].
    { intros c Hc. specialize (Hin c (or_intror Hc)). rewrite Ea in Hin.
      apply in_app_or in Hin. simpl. rewrite in_app_iff.
      destruct Hin as [H|[H|H]]; auto. }
    assert (El : length (char :: l1 ++ l2) = length alphabet).
    { rewrite Ea. cbn [length]. rewrite !length_app. cbn [length]. lia. }
    rewrite El in Hrange.
    split; [cbn [length]; now rewrite Hlen|].
    constructor; [|exact Hrange].
    rewrite Ea, length_app. cbn [length]. lia.
Qed.

Lemma joinComma_digitOrComma (ps : list jsstring) :
  Forall (fun p => forallb isDigit p = true) ps ->
  forallb digitOrComma (joinComma ps) = true.
Proof.
  assert (Hd : forall p, forallb isDigit p = true ->
                         forallb digitOrComma p = true).
  { induction p as [|c p IHp]; [reflexivity|]. cbn [forallb].
    intros H. apply andb_true_iff in H as [Hc Hp].
    unfold digitOrComma at 1. now rewrite Hc, (IHp Hp). }
  induction 1 as [|p ps Hp _ IH]; [reflexivity|].
  destruct ps as [|q ps]; [now apply Hd|].
  change (joinComma (p :: q :: ps)) with (p ++ comma :: joinComma (q :: ps)).
  rewrite forallb_app, (Hd p Hp). cbn [forallb andb].
  rewrite IH. unfold digitOrComma, codeunit_eqb. rewrite N.eqb_refl.
  now rewrite orb_true_r.
Qed.

Lemma numberToString_digits (zs : list Z) :
  Forall (fun z => 0 <= z) zs ->
  Forall (fun p => forallb isDigit p = true) (map numberToString zs).
Proof.
  induction 1 as [|z zs Hz _ IH]; simpl; constructor; [|assumption].
  unfold numberToString. destruct (Z.ltb_spec z 0); [lia|].
  apply digitsOfN_digits.
Qed.

End ForwardMtf.

(** X6: for a text that is not empty, the alphabet of the metadata has no
    duplicate, holds exactly the code points of the text, and is in
    strictly increasing order of code units. *)
Theorem moveToFrontTransform_alphabet (text : jsstring) :
  text <> [] ->
  exists alphabet,
    optionalKey Metadata.alphabet
      (TransformResult.metadata (moveToFrontTransform text)) = Some alphabet
    /\ NoDup alphabet
    /\ (forall c, In c alphabet <-> In c (codePoints text))
    /\ Sorted (fun a b => defaultCompare a b = Lt) alphabet.
Proof.
  intros Hne. exists (sortedAlphabet text). split.
  - destruct text; [congruence | reflexivity].
  - apply sortedAlphabet_spec.
Qed.

Lemma moveToFrontTransform_alphabet_witness :
  str "banana" <> []
  /\ exists alphabet,
       optionalKey Metadata.alphabet
         (TransformResult.metadata (moveToFrontTransform (str "banana")))
       = Some alphabet
       /\ NoDup alphabet
       /\ (forall c, In c alphabet <-> In c (codePoints (str "banana")))
       /\ Sorted (fun a b => defaultCompare a b = Lt) alphabet.
Proof.
  assert (H : str "banana" <> []) by discriminate.
  split; [exact H|]. exact (moveToFrontTransform_alphabet _ H).
Defined.

(** X7: for a text that is not empty, the output read back with
    [split(',').map(Number)] is one index for each code point of the text,
    every index being a position of the alphabet; the output is made of
    decimal digits and commas only. *)
Theorem moveToFrontTransform_indices (text : jsstring) :
  text <> [] ->
  let r := moveToFrontTransform text in
  exists indexArray,
    numbersOf (splitComma (TransformResult.transformed r)) = Some indexArray
    /\ length indexArray = length (codePoints text)
    /\ Forall (fun z => 0 <= z < Z.of_nat (length (sortedAlphabet text)))
              indexArray
    /\ forallb digitOrComma (TransformResult.transformed r) = true
    /\ TransformResult.transformed r <> [].
Proof.
  intros Hne r. subst r. destruct text as [|c t]; [congruence|].
  set (text := c :: t) in *.
  change (TransformResult.transformed (moveToFrontTransform text))
    with (joinComma (map numberToString
                       (mtfIndices (codePoints text) (sortedAlphabet text)))).
  destruct (mtfIndices_range (codePoints text) (sortedAlphabet text)
              (sortedAlphabet_In text)) as [Hlen Hrange].
  pose proof (mtfIndices_nonempty (codePoints text) (sortedAlphabet text)
                (codePoints_nonempty text Hne)) as Hidx.
  set (indices := mtfIndices (codePoints text) (sortedAlphabet text)) in *.
  assert (Hpos : Forall (fun z => 0 <= z) indices).
  { eapply Forall_impl; [|exact Hrange]. simpl. intros; lia. }
  exists indices. repeat split.
  - rewrite splitComma_joinComma.
    + now apply numbersOf_numberToString.
    + destruct indices; [congruence | discriminate].
    + now apply numberToString_commaFree.
  - exact Hlen.
  - exact Hrange.
  - apply joinComma_digitOrComma. now apply numberToString_digits.
  - destruct indices as [|z zs]; [congruence|].
    apply joinComma_nonempty. unfold numberToString.
    destruct (z <? 0); [discriminate | apply digitsOfN_nonempty].
Qed.

Lemma moveToFrontTransform_indices_witness :
  str "banana" <> []
  /\ exists indexArray,
       numbersOf (splitComma (TransformResult.transformed
                                (moveToFrontTransform (str "banana"))))
       = Some indexArray
       /\ length indexArray = length (codePoints (str "banana")).
Proof.
  assert (H : str "banana" <> []) by discriminate.
  split; [exact H|].
  destruct (moveToFrontTransform_indices _ H) as (ia & E & L & _).
  exists ia. split; assumption.
Defined.

Section UniformText.

Lemma surrogates_disjoint (c : codeunit) :
  isHighSurrogate c && isLowSurrogate c = false.
Proof.
  unfold isHighSurrogate, isLowSurrogate.
  destruct (N.leb_spec c 56319), (N.leb_spec 56320 c);
    rewrite ?andb_false_r, ?andb_false_l; try reflexivity. lia.
Qed.

Lemma codePoints_repeat (c : codeunit) (n : nat) :
  codePoints (repeat c n) = repeat [c] n.
Proof.
  induction n as [|n IH]; [reflexivity|].
  cbn [repeat]. destruct n as [|n]; [reflexivity|].
  cbn [repeat] in *. cbn [codePoints]. rewrite surrogates_disjoint.
  f_equal. exact IH.
Qed.

Lemma uniqueAcc_repeat (x : jsstring) (n : nat) :
  uniqueAcc [x] (repeat x n) = [x].
Proof.
  induction n as [|n IH]; [reflexivity|].
  cbn [repeat uniqueAcc memb]. now rewrite jsstring_eqb_refl.
Qed.

Lemma mtfIndices_repeat (x : jsstring) (n : nat) :
  mtfIndices (repeat x n) [x] = repeat 0 n.
Proof.
  induction n as [|n IH]; [reflexivity|].
  cbn [repeat mtfIndices]. unfold indexOf. cbn [indexOfFrom].
  rewrite jsstring_eqb_refl. f_equal. exact IH.
Qed.

End UniformText.

Lemma moveToFrontTransform_uniform_aux (c : codeunit) (n : nat) :
  TransformResult.transformed (moveToFrontTransform (repeat c (S n)))
  = joinComma (repeat (str "0") (S n))
  /\ optionalKey Metadata.alphabet
       (TransformResult.metadata (moveToFrontTransform (repeat c (S n))))
     = Some [[c]].
Proof.
  assert (Ea : sortedAlphabet (repeat c (S n)) = [[c]]).
  { unfold sortedAlphabet, unique. rewrite codePoints_repeat.
    cbn [repeat uniqueAcc memb]. now rewrite uniqueAcc_repeat. }
  cbn [repeat moveToFrontTransform TransformResult.transformed
       TransformResult.metadata optionalKey Metadata.alphabet].
  change (c :: repeat c n) with (repeat c (S n)). rewrite Ea.
  split; [|reflexivity].
  rewrite codePoints_repeat, mtfIndices_repeat, map_repeat. reflexivity.
Qed.

(** X8: a text made of one unit repeated has a one-symbol alphabet and all
    its indices are 0. *)
Theorem moveToFrontTransform_uniform (c : codeunit) (n : nat) :
  let r := moveToFrontTransform (repeat c (S n)) in
  TransformResult.transformed r = joinComma (repeat (str "0") (S n))
  /\ optionalKey Metadata.alphabet (TransformResult.metadata r) = Some [[c]].
Proof. exact (moveToFrontTransform_uniform_aux c n). Qed.

(** ** Inverse MTF *)

Section InverseMtf.

Lemma firstn_In {A : Type} (x : A) (n : nat) :
  forall l : list A, In x (firstn n l) -> In x l.
Proof.
  induction n as [|n IH]; intros [|y l]; simpl; try tauto.
  intros [H|H]; [now left | right; now apply IH].
Qed.

Lemma skipn_In {A : Type} (x : A) (n : nat) :
  forall l : list A, In x (skipn n l) -> In x l.
Proof.
  induction n as [|n IH]; intros [|y l]; simpl; try tauto.
  intros H. right. now apply IH.
Qed.

Lemma spliceOne_In {A : Type} (x : A) (i : Z) (a : list A) :
  In x (spliceOne i a) -> In x a.
Proof.
  unfold spliceOne. rewrite in_app_iff.
  intros [H|H]; [eapply firstn_In | eapply skipn_In]; exact H.
Qed.

Lemma at_In {A : Type} (a : list A) (i : Z) (x : A) :
  at_ a i = Some x -> In x a.
Proof.
  unfold at_. destruct (i <? 0); [discriminate|]. apply nth_error_In.
Qed.

(** Once the working alphabet holds nothing but [undefined], it stays so
    and every index reads [undefined]. *)
Lemma inverseMtfLoop_undefined (indexArray : list Z) :
  forall alphabet : list (option jsstring),
    (forall x, In x alphabet -> x = None) ->
    inverseMtfLoop indexArray alphabet
    = concat (map (fun _ => undefinedText) indexArray).
Proof.
  induction indexArray as [|index rest IH]; intros alphabet Hall; [reflexivity|].
  cbn [inverseMtfLoop map concat].
  assert (Hchar : match at_ alphabet index with
                  | Some c => c
                  | None => None
                  end = None).
  { destruct (at_ alphabet index) as [c|] eqn:E; [|reflexivity].
    apply Hall. eapply at_In; exact E. }
  rewrite Hchar. cbn [textOf]. f_equal. apply IH.
  intros x [<-|Hx]; [reflexivity|]. apply Hall. eapply spliceOne_In; exact Hx.
Qed.





Lemma joinComma_numbers_parse (zs : list Z) :
  zs <> [] -> Forall (fun z => 0 <= z) zs ->
  joinComma (map numberToString zs) <> []
  /\ numbersOf (splitComma (joinComma (map numberToString zs))) = Some zs.
Proof.
  intros Hne Hpos. split.
  - destruct zs as [|z zs]; [congruence|]. apply joinComma_nonempty.
    unfold numberToString. destruct (z <? 0); [discriminate|].
    apply digitsOfN_nonempty.
  - rewrite splitComma_joinComma.
    + now apply numbersOf_numberToString.
    + destruct zs; [congruence | discriminate].
    + now apply numberToString_commaFree.
Qed.

Lemma inverseMoveToFrontTransform_parsed (indices : jsstring)
  (indexArray : list Z) (alphabet : list jsstring) :
  indices <> [] ->
  numbersOf (splitComma indices) = Some indexArray ->
  inverseMoveToFrontTransform indices alphabet
  = Return (inverseMtfLoop indexArray (map Some alphabet)).
Proof.
  intros Hne Hp. destruct indices; [congruence|].
  unfold inverseMoveToFrontTransform. now rewrite Hp.
Qed.

End InverseMtf.

(** X9: with an empty alphabet no index finds a symbol: the inverse does
    not fail, it returns the text ["undefined"] once for every index. *)
Theorem inverseMoveToFrontTransform_empty_alphabet (indexArray : list Z) :
  indexArray <> [] ->
  Forall (fun z => 0 <= z) indexArray ->
  inverseMoveToFrontTransform (joinComma (map numberToString indexArray)) []
  = Return (concat (map (fun _ => undefinedText) indexArray)).
Proof.
  intros Hne Hpos.
  destruct (joinComma_numbers_parse indexArray Hne Hpos) as [Hj Hp].
  rewrite (inverseMoveToFrontTransform_parsed _ indexArray [] Hj Hp).
  f_equal. apply inverseMtfLoop_undefined. intros x [].
Qed.

Lemma inverseMoveToFrontTransform_empty_alphabet_witness :
  inverseMoveToFrontTransform (str "0,3") []
  = Return (str "undefinedundefined").
Proof.
  apply (inverseMoveToFrontTransform_empty_alphabet [0; 3]).
  - discriminate.
  - repeat constructor; lia.
Defined.




(** ** Run-length coding *)

Section RunLengthSize.

Lemma digitsFuel_length (f : nat) :
  forall (n : N) (acc : jsstring),
    (n < 2 ^ N.of_nat f)%N ->
    (n < 2)%N /\ length (digitsFuel (S f) n acc) = S (length acc)
    \/ (2 <= n)%N
       /\ Z.of_nat (length (digitsFuel (S f) n acc)) + 1
          <= Z.of_N n + Z.of_nat (length acc).
Proof.
  induction f as [|f IH]; intros n acc Hn.
  - left. assert (n = 0%N) by (simpl in Hn; lia). subst n. split; [lia|reflexivity].
  - rewrite digitsFuel_S. destruct (N.ltb_spec n 10) as [Hlt|Hge].
    + destruct (N.lt_ge_cases n 2).
      * left. split; [assumption | reflexivity].
      * right. split; [assumption|]. cbn [length]. lia.
    + right. split; [lia|].
      pose proof (N.div_mod n 10 ltac:(discriminate)) as Hd.
      pose proof (N.mod_upper_bound n 10 ltac:(discriminate)) as Hm.
      assert (Hq : (n / 10 < 2 ^ N.of_nat f)%N).
      { rewrite Nat2N.inj_succ, N.pow_succ_r' in Hn.
        apply N.Div0.div_lt_upper_bound. lia. }
      destruct (IH (n / 10)%N ((48 + n mod 10)%N :: acc) Hq) as [[H2 Hl]|[H2 Hl]].
      * rewrite Hl. cbn [length].
        set (q := (n / 10)%N) in *. set (m := (n mod 10)%N) in *.
        clearbody q m. lia.
      * cbn [length] in Hl.
        set (q := (n / 10)%N) in *. set (m := (n mod 10)%N) in *.
        clearbody q m. lia.
Qed.

Lemma emitRun_length (count : Z) (c : codeunit) :
  1 <= count -> lengthOf (emitRun count c) <= count.
Proof.
  intros Hc. unfold emitRun, lengthOf.
  destruct (Z.ltb_spec 1 count) as [Hgt|Hle]; [|simpl; lia].
  unfold numberToString. destruct (Z.ltb_spec count 0); [lia|].
  rewrite length_app. cbn [length]. unfold digitsOfN.
  destruct (digitsFuel_length (N.to_nat (N.size (Z.to_N count))) (Z.to_N count) [])
    as [[H2 _]|[_ Hl]].
  - rewrite N2Nat.id. apply N.size_gt.
  - lia.
  - cbn [length] in Hl. lia.
Qed.

Lemma encodeRuns_length (rest : jsstring) :
  forall (c : codeunit) (count : Z),
    1 <= count ->
    0 < lengthOf (encodeRuns rest c count) <= count + lengthOf rest.
Proof.
  induction rest as [|d rest IH]; intros c count Hc; cbn [encodeRuns].
  - pose proof (emitRun_length count c Hc) as Hl. unfold lengthOf in *.
    cbn [length]. split; [|lia].
    unfold emitRun. destruct (1 <? count); [rewrite length_app|]; simpl; lia.
  - unfold lengthOf in *. cbn [length].
    destruct (codeunit_eqb d c).
    + specialize (IH c (count + 1) ltac:(lia)). lia.
    + rewrite length_app. specialize (IH d 1 ltac:(lia)).
      pose proof (emitRun_length count c Hc) as Hl. unfold lengthOf in Hl. lia.
Qed.

Lemma encodeRuns_repeat (c : codeunit) (k : nat) :
  forall count, encodeRuns (repeat c k) c count = emitRun (count + Z.of_nat k) c.
Proof.
  induction k as [|k IH]; intros count; cbn [repeat encodeRuns].
  - f_equal. lia.
  - unfold codeunit_eqb. rewrite N.eqb_refl, IH. f_equal. lia.
Qed.

End RunLengthSize.

(** X12: the encoded text is never longer than the text, and it is empty
    only for the empty text. *)
Theorem runLengthEncode_never_longer (text : jsstring) :
  lengthOf (TransformResult.transformed (runLengthEncode text)) <= lengthOf text
  /\ (TransformResult.transformed (runLengthEncode text) = [] <-> text = []).
Proof.
  destruct text as [|c rest]; [split; [reflexivity | tauto]|].
  cbn [runLengthEncode TransformResult.transformed].
  destruct (encodeRuns_length rest c 1 ltac:(lia)) as [Hpos Hle].
  unfold lengthOf in *. cbn [length]. split; [lia|].
  split; [|discriminate]. intros E. rewrite E in Hpos. simpl in Hpos. lia.
Qed.

(** X13: a run of two or more copies of one unit, on its own, is encoded
    as its length in decimal followed by the unit. *)
Theorem runLengthEncode_run (c : codeunit) (n : nat) :
  TransformResult.transformed (runLengthEncode (repeat c (S (S n))))
  = numberToString (Z.of_nat (S (S n))) ++ [c].
Proof.
  cbn [repeat runLengthEncode TransformResult.transformed].
  change (c :: repeat c n) with (repeat c (S n)).
  rewrite encodeRuns_repeat. unfold emitRun.
  destruct (Z.ltb_spec 1 (1 + Z.of_nat (S n))); [|lia].
  do 2 f_equal. lia.
Qed.

(** X14: a run of two or more copies of a decimal digit does not survive
    the round trip: its encoding is a text of digits, read as a count with
    no character after it, and the decoder throws. *)
Theorem rle_round_trip_digit_run (c : codeunit) (n : nat) :
  isDigit c = true ->
  rleRoundTrip (repeat c (S (S n))) = TypeError.
Proof.
  intros Hc. unfold rleRoundTrip.
  cbn [repeat runLengthEncode TransformResult.transformed].
  change (c :: repeat c n) with (repeat c (S n)).
  rewrite encodeRuns_repeat, runLengthDecode_decodeFrom. unfold emitRun.
  destruct (Z.ltb_spec 1 (1 + Z.of_nat (S n))); [|lia].
  apply decodeFrom_digits_only.
  - rewrite forallb_app. cbn [forallb]. rewrite Hc. unfold numberToString.
    destruct (Z.ltb_spec (1 + Z.of_nat (S n)) 0); [lia|].
    now rewrite digitsOfN_digits.
  - rewrite length_app. cbn [length].
    pose proof (digitsOfN_nonempty (Z.to_N (1 + Z.of_nat (S n)))) as Hne.
    unfold numberToString. destruct (Z.ltb_spec (1 + Z.of_nat (S n)) 0); [lia|].
    destruct (digitsOfN (Z.to_N (1 + Z.of_nat (S n)))); [congruence | simpl; lia].
Qed.

Lemma rle_round_trip_digit_run_witness :
  isDigit 49%N = true /\ rleRoundTrip (str "111") = TypeError.
Proof.
  assert (H : isDigit 49%N = true) by reflexivity.
  split; [exact H|]. exact (rle_round_trip_digit_run 49%N 1 H).
Defined.

Lemma rle_round_trip_digit_free_witness :
  digitFree (str "aaab  ccccccccccccd") = true
  /\ lengthOf (str "aaab  ccccccccccccd") <= Z.of_N maxStringLength
  /\ rleRoundTrip (str "aaab  ccccccccccccd") = Return (str "aaab  ccccccccccccd").
Proof.
  assert (H : digitFree (str "aaab  ccccccccccccd") = true) by reflexivity.
  assert (H' : lengthOf (str "aaab  ccccccccccccd") <= Z.of_N maxStringLength)
    by (vm_compute; discriminate).
  split; [exact H|]. split; [exact H'|].
  exact (rle_round_trip_digit_free _ H H').
Defined.

Section Decoder.

Lemma decodeFrom_digit_free (encoded : jsstring) :
  digitFree encoded = true -> decodeFrom encoded = Return encoded.
Proof.
  unfold digitFree. induction encoded as [|c rest IH]; [reflexivity|].
  cbn [forallb]. intros H. apply andb_true_iff in H as [Hc Hrest].
  apply negb_true_iff in Hc.
  rewrite decodeFrom_literal, (IH Hrest) by assumption. reflexivity.
Qed.

Lemma decodeFrom_cons (c : codeunit) (t : jsstring) :
  t <> [] ->
  decodeFrom (c :: t)
  = if isDigit c then digitsLoop decodeFrom [c] t
    else bind (decodeFrom t) (fun decoded => Return (c :: decoded)).
Proof. destruct t; [congruence | reflexivity]. Qed.

(** A call that throws. *)
Lemma repeatChar_throws (c : codeunit) (count : N) (rest : outcome jsstring) :
  rest = TypeError \/ rest = RangeError ->
  repeatChar c count rest = TypeError \/ repeatChar c count rest = RangeError.
Proof.
  unfold repeatChar. destruct (count <=? maxStringLength)%N; [|auto].
  intros [-> | ->]; simpl; auto.
Qed.

Lemma decode_before_digits (ds : jsstring) :
  forallb isDigit ds = true -> (2 <= length ds)%nat ->
  forall pre : jsstring,
    isDigit (last pre 0%N) = false ->
    (decodeFrom (pre ++ ds) = TypeError \/ decodeFrom (pre ++ ds) = RangeError)
    /\ (pre <> [] ->
        forall countStr,
          digitsLoop decodeFrom countStr (pre ++ ds) = TypeError
          \/ digitsLoop decodeFrom countStr (pre ++ ds) = RangeError).
Proof.
  intros Hds Hlen. induction pre as [|c pre IH]; intros Hlast.
  - split; [left; now apply decodeFrom_digits_only | congruence].
  - assert (Htail : pre ++ ds <> []) by (destruct pre, ds; simpl in *; try lia; discriminate).
    assert (Hpre : pre = [] /\ isDigit c = false
                   \/ pre <> [] /\ isDigit (last pre 0%N) = false).
    { destruct pre as [|d pre]; [left; auto | right].
      split; [discriminate | exact Hlast]. }
    assert (Hrest : isDigit (last pre 0%N) = false).
    { destruct Hpre as [[-> _]|[_ H]]; [reflexivity | exact H]. }
    destruct (IH Hrest) as [IHa IHb].
    split.
    + cbn [app]. rewrite (decodeFrom_cons c (pre ++ ds) Htail).
      destruct (isDigit c) eqn:Hc.
      * destruct Hpre as [[_ H]|[Hne _]]; [congruence|]. now apply IHb.
      * destruct IHa as [-> | ->]; simpl; auto.
    + intros _ countStr. cbn [app digitsLoop]. destruct (isDigit c) eqn:Hc.
      * destruct Hpre as [[_ H]|[Hne _]]; [congruence|]. now apply IHb.
      * now apply repeatChar_throws.
Qed.

End Decoder.

(** X15: a text without decimal digits decodes to itself. *)
Theorem runLengthDecode_digit_free (encoded : jsstring) :
  digitFree encoded = true -> runLengthDecode encoded = Return encoded.
Proof.
  intros H. rewrite runLengthDecode_decodeFrom. now apply decodeFrom_digit_free.
Qed.

Lemma runLengthDecode_digit_free_witness :
  digitFree (str "a,b c") = true
  /\ runLengthDecode (str "a,b c") = Return (str "a,b c").
Proof.
  assert (H : digitFree (str "a,b c") = true) by reflexivity.
  split; [exact H|]. exact (runLengthDecode_digit_free _ H).
Defined.

(** X17: an encoded text that ends in two or more decimal digits, the unit
    before them (if any) being no digit, is never decoded: the last digits
    are read as a count with no character after it, and the call throws
    (or it has thrown before, on a count too large). *)
Theorem runLengthDecode_trailing_digits (pre ds : jsstring) :
  forallb isDigit ds = true ->
  (2 <= length ds)%nat ->
  isDigit (last pre 0%N) = false ->
  runLengthDecode (pre ++ ds) = TypeError
  \/ runLengthDecode (pre ++ ds) = RangeError.
Proof.
  intros Hds Hlen Hlast. rewrite runLengthDecode_decodeFrom.
  now apply (decode_before_digits ds Hds Hlen pre Hlast).
Qed.

Lemma runLengthDecode_trailing_digits_witness :
  runLengthDecode (str "0,1,12") = TypeError
  \/ runLengthDecode (str "0,1,12") = RangeError.
Proof.
  apply (runLengthDecode_trailing_digits (str "0,1,") (str "12")).
  - reflexivity.
  - simpl. lia.
  - reflexivity.
Defined.



(** ** The index text through the run-length pair *)

Section IndexText.

Lemma joinComma_zeros_S (n : nat) :
  joinComma (repeat (str "0") (S (S n)))
  = 48%N :: comma :: joinComma (repeat (str "0") (S n)).
Proof. reflexivity. Qed.

Lemma encodeRuns_other (d c : codeunit) (rest : jsstring) (count : Z) :
  codeunit_eqb d c = false ->
  encodeRuns (d :: rest) c count = emitRun count c ++ encodeRuns rest d 1.
Proof. intros H. cbn [encodeRuns]. now rewrite H. Qed.

Lemma encodeRuns_zeros (n : nat) :
  encodeRuns (joinComma (repeat (str "0") (S n))) comma 1
  = comma :: joinComma (repeat (str "0") (S n)).
Proof.
  induction n as [|n IH]; [reflexivity|].
  rewrite joinComma_zeros_S.
  rewrite encodeRuns_other by reflexivity.
  rewrite encodeRuns_other by reflexivity.
  rewrite IH. reflexivity.
Qed.

Lemma runLengthEncode_zeros (n : nat) :
  TransformResult.transformed
    (runLengthEncode (joinComma (repeat (str "0") (S n))))
  = joinComma (repeat (str "0") (S n)).
Proof.
  destruct n as [|n]; [reflexivity|].
  rewrite joinComma_zeros_S. cbn [runLengthEncode TransformResult.transformed].
  rewrite encodeRuns_other by reflexivity.
  rewrite encodeRuns_zeros. reflexivity.
Qed.

Lemma decodeFrom_zeros (n : nat) :
  decodeFrom (joinComma (repeat (str "0") (S n))) = Return (str "0").
Proof.
  induction n as [|n IH]; [reflexivity|].
  rewrite joinComma_zeros_S.
  change (48%N :: comma :: joinComma (repeat (str "0") (S n)))
    with (str "0" ++ comma :: joinComma (repeat (str "0") (S n))).
  rewrite decodeFrom_run; [| discriminate | reflexivity | reflexivity].
  rewrite IH. reflexivity.
Qed.

End IndexText.

(** X19: for a text made of one unit repeated, whatever its length, the
    index text of the MTF stage is left as it is by the encoder, and the
    decoder turns it into ["0"], the index text of a text of one unit:
    every [0,] is read as a count of 0. *)
Theorem rle_round_trip_uniform_indices (c : codeunit) (n : nat) :
  let indices :=
    TransformResult.transformed (moveToFrontTransform (repeat c (S n))) in
  TransformResult.transformed (runLengthEncode indices) = indices
  /\ rleRoundTrip indices = Return (str "0").
Proof.
  cbv zeta. rewrite (proj1 (moveToFrontTransform_uniform_aux c n)).
  pose proof (runLengthEncode_zeros n) as Henc.
  split; [exact Henc|].
  unfold rleRoundTrip. rewrite Henc, runLengthDecode_decodeFrom.
  apply decodeFrom_zeros.
Qed.

(** ** The record of [compressText] *)

Section Record.

Lemma bwt_output_length (text : jsstring) :
  text <> [] ->
  length (TransformResult.transformed (burrowsWheelerTransform text))
  = length text.
Proof.
  intros Hne.
  destruct (burrowsWheelerTransform_lastColumn text Hne) as [Et _].
  destruct (lastColumn_sentinel text) as [_ Hlen].
  rewrite Et. unfold dropLast.
  rewrite removelast_firstn_len, length_firstn, Hlen. simpl. lia.
Qed.

Lemma bwt_output_nonempty (text : jsstring) :
  text <> [] ->
  TransformResult.transformed (burrowsWheelerTransform text) <> [].
Proof.
  intros Hne E. apply (f_equal (@length _)) in E.
  rewrite bwt_output_length in E by assumption.
  destruct text; [congruence | discriminate].
Qed.

Lemma mtf_output (text : jsstring) :
  text <> [] ->
  TransformResult.transformed (moveToFrontTransform text) <> []
  /\ forallb digitOrComma (TransformResult.transformed (moveToFrontTransform text))
     = true
  /\ TransformResult.metadata (moveToFrontTransform text)
     = Some (Metadata.make None (Some (sortedAlphabet text))
               (Some (divide (sumZ (mtfIndices (codePoints text) (sortedAlphabet text)))
                             (Z.of_nat (length (mtfIndices (codePoints text)
                                                  (sortedAlphabet text))))))
               None None None None).
Proof.
  intros Hne. destruct text as [|c t]; [congruence|].
  set (text := c :: t) in *.
  change (TransformResult.transformed (moveToFrontTransform text))
    with (joinComma (map numberToString
                       (mtfIndices (codePoints text) (sortedAlphabet text)))).
  destruct (mtfIndices_range (codePoints text) (sortedAlphabet text)
              (sortedAlphabet_In text)) as [_ Hrange].
  pose proof (mtfIndices_nonempty (codePoints text) (sortedAlphabet text)
                (codePoints_nonempty text Hne)) as Hidx.
  assert (Hpos : Forall (fun z => 0 <= z)
                   (mtfIndices (codePoints text) (sortedAlphabet text))).
  { eapply Forall_impl; [|exact Hrange]. simpl. intros; lia. }
  split; [apply (joinComma_numbers_parse _ Hidx Hpos)|].
  split; [|reflexivity].
  apply joinComma_digitOrComma. now apply numberToString_digits.
Qed.

Lemma rle_output_nonempty (text : jsstring) :
  text <> [] -> TransformResult.transformed (runLengthEncode text) <> [].
Proof.
  destruct text as [|c rest]; [congruence|]. intros _ E.
  cbn [runLengthEncode TransformResult.transformed] in E.
  destruct (encodeRuns_length rest c 1 ltac:(lia)) as [Hpos _].
  rewrite E in Hpos. unfold lengthOf in Hpos. simpl in Hpos. lia.
Qed.

Lemma rle_output_length (text : jsstring) :
  lengthOf (TransformResult.transformed (runLengthEncode text)) <= lengthOf text.
Proof.
  destruct text as [|c rest]; [reflexivity|].
  cbn [runLengthEncode TransformResult.transformed].
  destruct (encodeRuns_length rest c 1 ltac:(lia)) as [_ Hle].
  unfold lengthOf in *. cbn [length]. lia.
Qed.

Lemma divide_nonzero (a b : Z) : b <> 0 -> divide a b = Quotient a b.
Proof. intros Hb. unfold divide. destruct (Z.eqb_spec b 0); [lia | reflexivity]. Qed.

Lemma lengthOf_nonzero (s : jsstring) : s <> [] -> 0 < lengthOf s.
Proof. destruct s; [congruence|]. intros _. unfold lengthOf. simpl. lia. Qed.

End Record.

(** X20: in the record of [compressText] the BWT step always carries the
    primary index, whatever the text; the MTF step carries an alphabet
    exactly when the text is not empty, and it is then the sorted alphabet
    of the output of the BWT step. *)
Theorem compressText_metadata (text : jsstring) :
  exists original bwtStep mtfStep rleStep,
    compressText text = [original; bwtStep; mtfStep; rleStep]
    /\ optionalKey Metadata.primaryIndex (CompressionStep.metadata bwtStep)
       = Some (TransformResult.primaryIndex (burrowsWheelerTransform text))
    /\ (optionalKey Metadata.alphabet (CompressionStep.metadata mtfStep) = None
        <-> text = [])
    /\ (text <> [] ->
        optionalKey Metadata.alphabet (CompressionStep.metadata mtfStep)
        = Some (sortedAlphabet (CompressionStep.output bwtStep))).
Proof.
  unfold compressText. do 4 eexists. split; [reflexivity|].
  cbn [CompressionStep.metadata CompressionStep.output].
  split.
  - destruct text as [|c t]; [reflexivity|].
    unfold burrowsWheelerTransform.
    destruct (lastColumnFrom (sortedRotations (c :: t)) 0 [] 0) as [L p].
    reflexivity.
  - assert (Hm : text <> [] ->
                 optionalKey Metadata.alphabet
                   (TransformResult.metadata
                      (moveToFrontTransform
                         (TransformResult.transformed (burrowsWheelerTransform text))))
                 = Some (sortedAlphabet
                           (TransformResult.transformed (burrowsWheelerTransform text)))).
    { intros Hne.
      destruct (mtf_output _ (bwt_output_nonempty text Hne)) as (_ & _ & ->).
      reflexivity. }
    split; [|exact Hm]. split.
    + intros E. destruct text as [|c t]; [reflexivity|].
      rewrite Hm in E by discriminate. discriminate.
    + intros ->. reflexivity.
Qed.

Lemma compressText_metadata_witness :
  exists original bwtStep mtfStep rleStep,
    compressText (str "banana") = [original; bwtStep; mtfStep; rleStep]
    /\ optionalKey Metadata.primaryIndex (CompressionStep.metadata bwtStep)
       = Some 4
    /\ optionalKey Metadata.alphabet (CompressionStep.metadata mtfStep)
       = Some (sortedAlphabet (CompressionStep.output bwtStep)).
Proof.
  destruct (compressText_metadata (str "banana"))
    as (s0 & s1 & s2 & s3 & E & Hp & _ & Ha).
  exists s0, s1, s2, s3. split; [exact E|]. split.
  - rewrite Hp. vm_compute. reflexivity.
  - apply Ha. discriminate.
Defined.

(** X21: for a text that is not empty, the outputs of the four steps are
    the text and three texts none of which is empty, and every ratio of the
    record is a number, the length of an output over the length of the
    next: the ratio of the BWT step is the length of the text over itself,
    and the output of the RLE step is never longer than the output of the
    MTF step. *)
Theorem compressText_ratios (text : jsstring) :
  text <> [] ->
  exists bwtOutput mtfOutput rleOutput,
    map CompressionStep.output (compressText text)
    = [text; bwtOutput; mtfOutput; rleOutput]
    /\ map CompressionStep.ratio (compressText text)
       = [Some (Quotient 1 1);
          Some (Quotient (lengthOf text) (lengthOf text));
          Some (Quotient (lengthOf text) (lengthOf mtfOutput));
          Some (Quotient (lengthOf mtfOutput) (lengthOf rleOutput))]
    /\ lengthOf bwtOutput = lengthOf text
    /\ 0 < lengthOf rleOutput <= lengthOf mtfOutput
    /\ forallb ratioDefined (compressText text) = true.
Proof.
  intros Hne.
  set (bwt := TransformResult.transformed (burrowsWheelerTransform text)).
  set (mtf := TransformResult.transformed (moveToFrontTransform bwt)).
  set (rle := TransformResult.transformed (runLengthEncode mtf)).
  assert (Hb : lengthOf bwt = lengthOf text).
  { unfold lengthOf, bwt. now rewrite bwt_output_length. }
  assert (Hm : mtf <> []) by (apply mtf_output, bwt_output_nonempty, Hne).
  assert (Hr : rle <> []) by (apply rle_output_nonempty, Hm).
  pose proof (lengthOf_nonzero text Hne) as Ht.
  pose proof (lengthOf_nonzero mtf Hm) as Hmz.
  pose proof (lengthOf_nonzero rle Hr) as Hrz.
  pose proof (rle_output_length mtf) as Hle. fold rle in Hle.
  assert (E : map CompressionStep.ratio (compressText text)
              = [Some (Quotient 1 1);
                 Some (Quotient (lengthOf text) (lengthOf text));
                 Some (Quotient (lengthOf text) (lengthOf mtf));
                 Some (Quotient (lengthOf mtf) (lengthOf rle))]).
  { unfold compressText. cbn [map CompressionStep.ratio]. fold bwt mtf rle.
    rewrite Hb, !divide_nonzero by lia. reflexivity. }
  exists bwt, mtf, rle. split; [reflexivity|]. split; [exact E|].
  split; [exact Hb|]. split; [lia|].
  assert (Hall : forall steps,
             map CompressionStep.ratio steps
             = [Some (Quotient 1 1);
                Some (Quotient (lengthOf text) (lengthOf text));
                Some (Quotient (lengthOf text) (lengthOf mtf));
                Some (Quotient (lengthOf mtf) (lengthOf rle))] ->
             forallb ratioDefined steps = true).
  { intros [|a [|b [|c [|d [|e steps]]]]] H; try discriminate.
    injection H as Ha Hb' Hc Hd. unfold ratioDefined. cbn [forallb].
    now rewrite Ha, Hb', Hc, Hd. }
  apply Hall, E.
Qed.

Lemma compressText_ratios_witness :
  str "banana" <> []
  /\ map CompressionStep.output (compressText (str "banana"))
     = [str "banana"; str "annb$a"; str "1,3,0,3,3,3"; str "1,3,0,3,3,3"]
  /\ map CompressionStep.ratio (compressText (str "banana"))
     = [Some (Quotient 1 1); Some (Quotient 6 6); Some (Quotient 6 11);
        Some (Quotient 11 11)]
  /\ forallb ratioDefined (compressText (str "banana")) = true.
Proof.
  assert (H : str "banana" <> []) by discriminate.
  split; [exact H|].
  destruct (compressText_ratios _ H)
    as (bwt & mtf & rle & Eo & Er & _ & _ & Hall).
  split; [vm_compute; reflexivity|]. split; [|exact Hall].
  rewrite Er. vm_compute in Eo. injection Eo as _ <- <-.
  vm_compute. reflexivity.
Defined.

(** ** Decompressing a record of [compressText] *)

Section OwnRecord.

Lemma digit_digitOrComma (d : codeunit) :
  isDigit d = true -> digitOrComma d = true.
Proof. intros H. unfold digitOrComma. now rewrite H. Qed.

Lemma emitRun_digitOrComma (count : Z) (c : codeunit) :
  0 <= count -> digitOrComma c = true ->
  forallb digitOrComma (emitRun count c) = true.
Proof.
  intros Hcount Hc. unfold emitRun. destruct (1 <? count); cbn [forallb].
  - rewrite forallb_app. cbn [forallb]. rewrite Hc. unfold numberToString.
    destruct (Z.ltb_spec count 0); [lia|].
    rewrite andb_true_r. apply forallb_forall. intros d Hd.
    apply digit_digitOrComma.
    pose proof (digitsOfN_digits (Z.to_N count)) as Hall.
    rewrite forallb_forall in Hall. now apply Hall.
  - now rewrite Hc.
Qed.

Lemma encodeRuns_digitOrComma (rest : jsstring) :
  forall (c : codeunit) (count : Z),
    0 <= count -> digitOrComma c = true ->
    forallb digitOrComma rest = true ->
    forallb digitOrComma (encodeRuns rest c count) = true.
Proof.
  induction rest as [|d rest IH]; intros c count Hcount Hc Hrest;
    cbn [encodeRuns].
  - now apply emitRun_digitOrComma.
  - cbn [forallb] in Hrest. apply andb_true_iff in Hrest as [Hd Hrest].
    destruct (codeunit_eqb d c).
    + apply IH; [lia | assumption | assumption].
    + rewrite forallb_app, emitRun_digitOrComma by assumption.
      apply IH; [lia | assumption | assumption].
Qed.

Lemma decode_digitOrComma (encoded : jsstring) :
  forallb digitOrComma encoded = true ->
  decodedWithin (decodeFrom encoded)
  /\ forall countStr, decodedWithin (digitsLoop decodeFrom countStr encoded).
Proof.
  induction encoded as [|c t IH]; intros Hall.
  - split; [reflexivity | intros; exact I].
  - cbn [forallb] in Hall. apply andb_true_iff in Hall as [Hc Ht].
    destruct (IH Ht) as [IHa IHb].
    assert (Hrep : forall count, decodedWithin (repeatChar c count (decodeFrom t))).
    { intros count. unfold repeatChar.
      destruct (count <=? maxStringLength)%N; [|exact I].
      destruct (decodeFrom t) as [decoded| | |]; simpl in *; auto.
      rewrite forallb_app, IHa, andb_true_r.
      apply forallb_forall. intros x Hx. now apply repeat_spec in Hx as ->. }
    split.
    + destruct t as [|d t']; [simpl; now rewrite Hc|].
      rewrite decodeFrom_cons by discriminate.
      destruct (isDigit c); [apply IHb|].
      destruct (decodeFrom (d :: t')) as [decoded| | |]; simpl in *; auto.
      now rewrite Hc.
    + intros countStr. cbn [digitsLoop].
      destruct (isDigit c); [apply IHb | apply Hrep].
Qed.

Lemma splitComma_nonempty (s : jsstring) : splitComma s <> [].
Proof.
  induction s as [|c t IH]; [discriminate|]. cbn [splitComma].
  destruct (codeunit_eqb c comma); [discriminate|].
  destruct (splitComma t); [congruence | discriminate].
Qed.

Lemma numbersOf_digitOrComma (s : jsstring) :
  forallb digitOrComma s = true ->
  Forall (fun p => forallb isDigit p = true) (splitComma s).
Proof.
  induction s as [|c t IH]; intros Hall.
  - repeat constructor.
  - cbn [forallb] in Hall. apply andb_true_iff in Hall as [Hc Ht].
    specialize (IH Ht). cbn [splitComma].
    destruct (codeunit_eqb c comma) eqn:Ec.
    + constructor; [reflexivity | exact IH].
    + unfold digitOrComma in Hc. rewrite Ec, orb_false_r in Hc.
      destruct (splitComma t) as [|p ps]; [repeat constructor; simpl; now rewrite Hc|].
      inversion IH as [|? ? Hp Hps]; subst.
      constructor; [|exact Hps]. cbn [forallb]. now rewrite Hc, Hp.
Qed.

Lemma numbersOf_digit_pieces (pieces : list jsstring) :
  Forall (fun p => forallb isDigit p = true) pieces ->
  exists indexArray, numbersOf pieces = Some indexArray.
Proof.
  induction 1 as [|p ps Hp _ [zs IH]]; [now exists []|].
  cbn [numbersOf]. unfold Number. rewrite Hp, IH. eexists. reflexivity.
Qed.

Lemma inverseMoveToFrontTransform_modelled (indices : jsstring)
  (alphabet : list jsstring) :
  forallb digitOrComma indices = true ->
  exists text, inverseMoveToFrontTransform indices alphabet = Return text.
Proof.
  intros Hall. destruct indices as [|c t]; [now exists []|].
  destruct (numbersOf_digit_pieces _ (numbersOf_digitOrComma _ Hall)) as [zs Hz].
  unfold inverseMoveToFrontTransform. rewrite Hz. eexists. reflexivity.
Qed.

Lemma inverseBurrowsWheelerTransform_modelled (transformed : jsstring) (p : Z) :
  inverseBurrowsWheelerTransform transformed p <> Unmodelled.
Proof.
  unfold inverseBurrowsWheelerTransform. destruct transformed; [discriminate|].
  destruct (at_ _ p); discriminate.
Qed.

End OwnRecord.

(** X22: on a record made by [compressText], decompression stays inside
    the fragment of [Number] that is modelled: the text handed to the
    inverse MTF is made of decimal digits and commas, so that every piece
    read by [Number] is a string of digits or the empty string.  The call
    returns a string or throws. *)
Theorem decompressText_of_compressText_modelled (text : jsstring) :
  decompressText (compressText text) <> Unmodelled.
Proof.
  destruct text as [|c t]; [discriminate|].
  set (text := c :: t). assert (Hne : text <> []) by discriminate.
  unfold compressText. rewrite decompressText_four. unfold invertSteps.
  cbn [CompressionStep.output CompressionStep.metadata].
  set (bwt := TransformResult.transformed (burrowsWheelerTransform text)).
  destruct (mtf_output bwt (bwt_output_nonempty text Hne)) as (Hm & Hdc & Emeta).
  rewrite Emeta. cbn [optionalKey Metadata.alphabet].
  set (mtf := TransformResult.transformed (moveToFrontTransform bwt)) in *.
  assert (Hrle : forallb digitOrComma
                   (TransformResult.transformed (runLengthEncode mtf)) = true).
  { destruct mtf as [|d rest]; [congruence|].
    cbn [runLengthEncode TransformResult.transformed].
    cbn [forallb] in Hdc. apply andb_true_iff in Hdc as [Hd Hrest].
    apply encodeRuns_digitOrComma; [lia | assumption | assumption]. }
  rewrite runLengthDecode_decodeFrom.
  pose proof (proj1 (decode_digitOrComma _ Hrle)) as Hdec.
  destruct (decodeFrom (TransformResult.transformed (runLengthEncode mtf)))
    as [decoded| | |]; simpl in Hdec; try discriminate; [|contradiction].
  cbn [bind].
  destruct (inverseMoveToFrontTransform_modelled decoded (sortedAlphabet bwt) Hdec)
    as [current ->].
  cbn [bind].
  destruct (Metadata.primaryIndex
              (withPrimaryIndex
                 (TransformResult.primaryIndex (burrowsWheelerTransform text))
                 (TransformResult.metadata (burrowsWheelerTransform text))));
    [apply inverseBurrowsWheelerTransform_modelled | discriminate].
Qed.

(** ** The display helpers *)

(** X23: [formatOutput] never returns more than [maxLength] units and
    three dots (53 units when [maxLength] is left out), keeps the first
    [maxLength] units of the text, and returns a text of at most
    [maxLength] units unchanged. *)
Theorem formatOutput_bounds (text : jsstring) (maxLength : Z) :
  lengthOf (formatOutput text (Some maxLength)) <= Z.max maxLength 0 + 3
  /\ lengthOf (formatOutput text None) <= 53
  /\ firstn (Z.to_nat maxLength) (formatOutput text (Some maxLength))
     = firstn (Z.to_nat maxLength) text
  /\ (lengthOf text <= maxLength -> formatOutput text (Some maxLength) = text)
  /\ (maxLength < lengthOf text ->
      lengthOf (formatOutput text (Some maxLength)) = Z.max maxLength 0 + 3).
Proof.
  assert (Hdefault : lengthOf (formatOutput text None) <= 53).
  { unfold formatOutput, lengthOf. cbv zeta.
    destruct (Z.leb_spec (Z.of_nat (length text)) 50); [lia|].
    rewrite length_app, length_firstn.
    change (length (str "...")) with 3%nat. lia. }
  unfold formatOutput, lengthOf in *. cbv zeta in *.
  destruct (Z.leb_spec (Z.of_nat (length text)) maxLength) as [Hle|Hgt].
  - repeat split; try lia.
  - assert (Hlen : length (firstn (Z.to_nat maxLength) text) = Z.to_nat maxLength)
      by (rewrite length_firstn; lia).
    repeat split; try lia.
    + rewrite length_app, Hlen. simpl. lia.
    + rewrite firstn_app, Hlen, Nat.sub_diag, firstn_firstn, Nat.min_id.
      cbn [firstn]. apply app_nil_r.
    + rewrite length_app, Hlen. simpl. lia.
Qed.

Lemma formatOutput_bounds_witness :
  (lengthOf (str "banana") <= 50
   /\ formatOutput (str "banana") (Some 50) = str "banana")
  /\ (3 < lengthOf (str "banana")
      /\ lengthOf (formatOutput (str "banana") (Some 3)) = Z.max 3 0 + 3).
Proof.
  assert (H : lengthOf (str "banana") <= 50) by (vm_compute; discriminate).
  assert (H' : 3 < lengthOf (str "banana")) by (vm_compute; reflexivity).
  split; split; try assumption.
  - exact (proj1 (proj2 (proj2 (proj2 (formatOutput_bounds (str "banana") 50)))) H).
  - exact (proj2 (proj2 (proj2 (proj2 (formatOutput_bounds (str "banana") 3)))) H').
Defined.

(** X24: the total ratio of the page, on the record of a text that is not
    empty, is a number: the length of the text over the length of the
    output of the RLE step (the encoding of the index text of the
    transformed text), which is not zero.  On the record of the empty text
    it is [NaN], and without a record it is 1. *)
Theorem totalCompressionRatio_of_record (text : jsstring) :
  let rleOutput :=
    TransformResult.transformed
      (runLengthEncode
         (TransformResult.transformed
            (moveToFrontTransform
               (TransformResult.transformed (burrowsWheelerTransform text))))) in
  (text <> [] ->
   totalCompressionRatio (compressText text)
   = Quotient (lengthOf text) (lengthOf rleOutput)
   /\ option_map CompressionStep.output (nth_error (compressText text) 3)
      = Some rleOutput
   /\ 0 < lengthOf rleOutput)
  /\ (text = [] -> totalCompressionRatio (compressText text) = NaN)
  /\ totalCompressionRatio [] = Quotient 1 1.
Proof.
  intros rleOutput.
  split; [|split; [intros ->; reflexivity | reflexivity]].
  intros Hne. subst rleOutput.
  set (bwt := TransformResult.transformed (burrowsWheelerTransform text)).
  set (mtf := TransformResult.transformed (moveToFrontTransform bwt)).
  set (rle := TransformResult.transformed (runLengthEncode mtf)).
  assert (Hm : mtf <> []) by (apply mtf_output, bwt_output_nonempty, Hne).
  assert (Hr : rle <> []) by (apply rle_output_nonempty, Hm).
  pose proof (lengthOf_nonzero rle Hr) as Hrz.
  split; [|split; [reflexivity | exact Hrz]].
  unfold compressText, totalCompressionRatio.
  cbn [last CompressionStep.output]. fold bwt mtf rle.
  apply divide_nonzero. lia.
Qed.

Lemma totalCompressionRatio_of_record_witness :
  (str "banana" <> []
   /\ totalCompressionRatio (compressText (str "banana")) = Quotient 6 11)
  /\ totalCompressionRatio (compressText []) = NaN.
Proof.
  assert (H : str "banana" <> []) by discriminate.
  split; [split; [exact H|]|].
  - rewrite (proj1 (proj1 (totalCompressionRatio_of_record (str "banana")) H)).
    vm_compute. reflexivity.
  - exact (proj1 (proj2 (totalCompressionRatio_of_record [])) eq_refl).
Defined.

(** ** Texts that end in digits *)

Section TrailingDigits.

Lemma emitRun_last (count : Z) (c : codeunit) :
  exists front, emitRun count c = front ++ [c].
Proof.
  unfold emitRun. destruct (1 <? count); [eexists; reflexivity|].
  now exists [].
Qed.

Lemma last_cons {A : Type} (rest : list A) :
  forall d c : A, last (d :: rest) c = last rest d.
Proof.
  induction rest as [|x rest IH]; intros d c; [reflexivity|].
  change (last (d :: x :: rest) c) with (last (x :: rest) c).
  now rewrite !IH.
Qed.

Lemma encodeRuns_last (rest : jsstring) :
  forall (c : codeunit) (count : Z),
    exists front, encodeRuns rest c count = front ++ [last rest c].
Proof.
  induction rest as [|d rest IH]; intros c count; cbn [encodeRuns].
  - apply emitRun_last.
  - destruct (codeunit_eqb d c) eqn:E.
    + apply N.eqb_eq in E. subst d. destruct (IH c (count + 1)) as [front Ef].
      exists front. now rewrite Ef, last_cons.
    + destruct (IH d 1) as [front Ef].
      exists (emitRun count c ++ front). now rewrite Ef, app_assoc, last_cons.
Qed.

(** The encoder starts a new run where two neighbours differ, so it can be
    run on the two sides of such a place one after the other. *)
Lemma encodeRuns_app (r1 : jsstring) :
  forall (c d : codeunit) (r2 : jsstring) (count : Z),
    codeunit_eqb d (last r1 c) = false ->
    encodeRuns (r1 ++ d :: r2) c count
    = encodeRuns r1 c count ++ encodeRuns r2 d 1.
Proof.
  induction r1 as [|x r1 IH]; intros c d r2 count Hd.
  - cbn [app last] in *. now apply encodeRuns_other.
  - rewrite last_cons in Hd. cbn [app encodeRuns].
    destruct (codeunit_eqb x c) eqn:E.
    + apply N.eqb_eq in E. subst x. now apply IH.
    + rewrite <- app_assoc. f_equal. now apply IH.
Qed.

Lemma encodeRuns_digits (rest : jsstring) :
  forall (c : codeunit) (count : Z),
    0 <= count -> isDigit c = true -> forallb isDigit rest = true ->
    forallb isDigit (encodeRuns rest c count) = true.
Proof.
  assert (He : forall c count, 0 <= count -> isDigit c = true ->
                               forallb isDigit (emitRun count c) = true).
  { intros c count Hcount Hc. unfold emitRun. destruct (1 <? count).
    - rewrite forallb_app. cbn [forallb]. rewrite Hc. unfold numberToString.
      destruct (Z.ltb_spec count 0); [lia|]. now rewrite digitsOfN_digits.
    - cbn [forallb]. now rewrite Hc. }
  induction rest as [|d rest IH]; intros c count Hcount Hc Hrest;
    cbn [encodeRuns]; [now apply He|].
  cbn [forallb] in Hrest. apply andb_true_iff in Hrest as [Hd Hrest].
  destruct (codeunit_eqb d c).
  - apply IH; [lia | assumption | assumption].
  - rewrite forallb_app, He by assumption. apply IH; [lia | assumption | assumption].
Qed.

Lemma emitRun_two (count : Z) (c : codeunit) :
  2 <= count -> (2 <= length (emitRun count c))%nat.
Proof.
  intros Hc. unfold emitRun. destruct (Z.ltb_spec 1 count); [|lia].
  rewrite length_app. cbn [length]. unfold numberToString.
  destruct (Z.ltb_spec count 0); [lia|].
  pose proof (digitsOfN_nonempty (Z.to_N count)).
  destruct (digitsOfN (Z.to_N count)); [congruence | simpl; lia].
Qed.

Lemma encodeRuns_two (rest : jsstring) :
  forall (c : codeunit) (count : Z),
    1 <= count -> (rest <> [] \/ 2 <= count) ->
    (2 <= length (encodeRuns rest c count))%nat.
Proof.
  induction rest as [|d rest IH]; intros c count Hc Hor; cbn [encodeRuns].
  - destruct Hor as [H|H]; [congruence | now apply emitRun_two].
  - destruct (codeunit_eqb d c).
    + apply IH; [lia | right; lia].
    + rewrite length_app.
      destruct (encodeRuns_length rest d 1 ltac:(lia)) as [Hpos _].
      destruct (emitRun_last count c) as [front Ef]. rewrite Ef, length_app.
      unfold lengthOf in Hpos. cbn [length]. lia.
Qed.

(** The encoding of a text that ends in two or more digits, after a unit
    that is no digit, ends the same way. *)
Lemma runLengthEncode_trailing_digits (pre ds : jsstring) :
  forallb isDigit ds = true -> (2 <= length ds)%nat ->
  isDigit (last pre 0%N) = false ->
  exists pre' ds',
    TransformResult.transformed (runLengthEncode (pre ++ ds)) = pre' ++ ds'
    /\ forallb isDigit ds' = true
    /\ (2 <= length ds')%nat
    /\ isDigit (last pre' 0%N) = false.
Proof.
  intros Hds Hlen Hlast. destruct ds as [|d ds]; [simpl in Hlen; lia|].
  cbn [forallb] in Hds. apply andb_true_iff in Hds as [Hd Hds].
  assert (Henc : forallb isDigit (encodeRuns ds d 1) = true)
    by (apply encodeRuns_digits; [lia | assumption | assumption]).
  assert (Htwo : (2 <= length (encodeRuns ds d 1))%nat).
  { apply encodeRuns_two; [lia|]. left. destruct ds; [simpl in Hlen; lia|].
    discriminate. }
  destruct pre as [|c pre].
  - exists [], (encodeRuns ds d 1). repeat split; assumption.
  - rewrite last_cons in Hlast.
    destruct (encodeRuns_last pre c 1) as [front Ef].
    exists (encodeRuns pre c 1), (encodeRuns ds d 1).
    cbn [app runLengthEncode TransformResult.transformed].
    split; [|split; [assumption | split; [assumption|]]].
    + apply encodeRuns_app. unfold codeunit_eqb. apply N.eqb_neq.
      intros ->. congruence.
    + rewrite Ef, last_last. exact Hlast.
Qed.

End TrailingDigits.

(** X25: a text that ends in two or more decimal digits, the unit before
    them (if any) being no digit, does not survive the run-length round
    trip: its encoding ends in digits too, and decoding it throws. *)
Theorem rle_round_trip_trailing_digits (pre ds : jsstring) :
  forallb isDigit ds = true ->
  (2 <= length ds)%nat ->
  isDigit (last pre 0%N) = false ->
  rleRoundTrip (pre ++ ds) = TypeError \/ rleRoundTrip (pre ++ ds) = RangeError.
Proof.
  intros Hds Hlen Hlast. unfold rleRoundTrip.
  destruct (runLengthEncode_trailing_digits pre ds Hds Hlen Hlast)
    as (pre' & ds' & -> & Hds' & Hlen' & Hlast').
  rewrite runLengthDecode_decodeFrom.
  now apply (decode_before_digits ds' Hds' Hlen' pre' Hlast').
Qed.

Lemma rle_round_trip_trailing_digits_witness :
  rleRoundTrip (str "0,1,2,3,4,5,6,7,8,9,10") = TypeError
  \/ rleRoundTrip (str "0,1,2,3,4,5,6,7,8,9,10") = RangeError.
Proof.
  apply (rle_round_trip_trailing_digits (str "0,1,2,3,4,5,6,7,8,9,") (str "10")).
  - reflexivity.
  - simpl. lia.
  - reflexivity.
Defined.

(** X26: [decompressText] throws on every record of four steps or more
    whose fourth output ends in two or more decimal digits after a unit
    that is no digit, whatever the metadata. *)
Theorem decompressText_trailing_digits (s0 s1 s2 s3 : CompressionStep.t)
  (rest : list CompressionStep.t) (pre ds : jsstring) :
  CompressionStep.output s3 = pre ++ ds ->
  forallb isDigit ds = true ->
  (2 <= length ds)%nat ->
  isDigit (last pre 0%N) = false ->
  decompressText (s0 :: s1 :: s2 :: s3 :: rest) = TypeError
  \/ decompressText (s0 :: s1 :: s2 :: s3 :: rest) = RangeError.
Proof.
  intros Eo Hds Hlen Hlast. rewrite decompressText_four. unfold invertSteps.
  rewrite Eo, runLengthDecode_decodeFrom.
  destruct (proj1 (decode_before_digits ds Hds Hlen pre Hlast)) as [-> | ->];
    simpl; auto.
Qed.

Lemma decompressText_trailing_digits_witness :
  let steps := compressText (str "abcdefghijk") in
  decompressText steps = TypeError \/ decompressText steps = RangeError.
Proof.
  intros steps.
  set (blank := CompressionStep.make [] [] [] None None).
  apply (decompressText_trailing_digits
           (nth 0 steps blank) (nth 1 steps blank) (nth 2 steps blank)
           (nth 3 steps blank) [] (str "10,1,2,3,4,5,6,7,8,9,") (str "10")).
  - vm_compute. reflexivity.
  - reflexivity.
  - simpl. lia.
  - reflexivity.
Defined.
